(** * Shifty: the tween lifecycle engine of [src/shifty.core.js]

    A shallow embedding of the engine (the object store, the timer queue,
    [simpleCopy], [tweenProps], [scheduleUpdate], [invokeHook], [applyFilter],
    [timeoutHandler], the [Tween] controller and the [Tweenable] instance) and
    the properties of its lifecycle. *)

From Stdlib Require Import ZArith QArith Lia.
From stdpp Require Import gmap strings list fin_maps.

Local Open Scope string_scope.

(** ** Numbers

    A JavaScript number under exact arithmetic: a rational, or a value that is
    not finite.  [NaN], [+Infinity] and [-Infinity] are not told apart; every
    operation below sends a non-finite operand to a non-finite result, as the
    IEEE operations do for the operand shapes the engine can produce (the only
    divisors are [fps] and [duration], which are finite or [undefined]). *)
Inductive num : Type :=
| NonFinite
| Fin (q : Q).

(** [ToNumber] of a property that may be absent: [undefined] becomes [NaN]. *)
Definition to_number (o : option num) : num :=
  match o with
  | Some n => n
  | None => NonFinite
  end.

Definition num_add (a b : num) : num :=
  match a, b with
  | Fin x, Fin y => Fin (x + y)
  | _, _ => NonFinite
  end.

Definition num_sub (a b : num) : num :=
  match a, b with
  | Fin x, Fin y => Fin (x - y)
  | _, _ => NonFinite
  end.

Definition num_mul (a b : num) : num :=
  match a, b with
  | Fin x, Fin y => Fin (x * y)
  | _, _ => NonFinite
  end.

(** [x / 0] is an infinity or [NaN]. *)
Definition num_div (a b : num) : num :=
  match a, b with
  | Fin x, Fin y => if Qeq_bool y 0 then NonFinite else Fin (x / y)
  | _, _ => NonFinite
  end.

(** Equality of numbers as values: rationals are compared as fractions. *)
Definition num_eq (a b : num) : Prop :=
  match a, b with
  | Fin x, Fin y => (x == y)%Q
  | NonFinite, NonFinite => True
  | _, _ => False
  end.

Definition Qltb (x y : Q) : bool := negb (Qle_bool y x).

(** [a || b] on a number that may be missing: [undefined] and [0] are falsy. *)
Definition or_num (a : option Q) (b : Q) : Q :=
  match a with
  | Some q => if Qeq_bool q 0 then b else q
  | None => b
  end.

(** [a || b] on a string that may be missing: the empty string is falsy. *)
Definition or_str (a : option string) (b : string) : string :=
  match a with
  | Some "" => b
  | Some s => s
  | None => b
  end.

(** ** Easing

    [(t, b, c, d)]: current time, start value, change in value, duration. *)
Definition EasingFunc : Type := num -> num -> num -> num -> num.

(** [Tweenable.prototype.formula.linear]: [c * t / d + b]. *)
Definition linear : EasingFunc :=
  fun t b c d => num_add (num_div (num_mul c t) d) b.

(** ** The object store

    Objects are mutable and shared by reference: [from], [to], [current] and
    [originalState] are references into one store.  An object maps its own
    enumerable property names to numbers. *)
Definition loc : Type := nat.
Abbreviation obj := (gmap string num).
Abbreviation heap := (gmap nat (gmap string num)).

Definition get_obj (h : heap) (l : loc) : obj := default ∅ (h !! l).

(** [o[prop]]; [None] is [undefined]. *)
Definition get_prop (h : heap) (l : loc) (prop : string) : option num :=
  get_obj h l !! prop.

(** [o.hasOwnProperty(prop)] *)
Definition hasOwnProperty (h : heap) (l : loc) (prop : string) : bool :=
  bool_decide (is_Some (get_prop h l prop)).

(** [o[prop] = v] *)
Definition set_prop (h : heap) (l : loc) (prop : string) (v : num) : heap :=
  <[l := <[prop := v]> (get_obj h l)]> h.

(** The property names a [for (prop in o)] loop visits, each once.  The
    loops below write, at each name, that property alone, so the order of the
    visit does not show in their result. *)
Definition own_props (h : heap) (l : loc) : list string :=
  (map_to_list (get_obj h l)).*1.

(** [simpleCopy (targetObj, srcObj)]: [each] own property of [srcObj] is
    assigned to [targetObj]. *)
Definition simpleCopy (targetObj srcObj : loc) (h : heap) : heap :=
  foldl (fun h prop => set_prop h targetObj prop (to_number (get_prop h srcObj prop)))
        h (own_props h srcObj).

(** The body of the loop of [tweenProps], for one property name.  A property
    that [originalState] lacks reads as [undefined], a [NaN] to arithmetic. *)
Definition tweenProps_body (currentTime timestamp : Z) (duration : Q)
    (easingFunc : EasingFunc) (originalState to current : loc)
    (h : heap) (prop : string) : heap :=
  if hasOwnProperty h current prop && hasOwnProperty h to prop then
    set_prop h current prop
      (easingFunc (Fin (inject_Z (currentTime - timestamp)))
                  (to_number (get_prop h originalState prop))
                  (num_sub (to_number (get_prop h to prop))
                           (to_number (get_prop h originalState prop)))
                  (Fin duration))
  else h.

(** [tweenProps (currentTime, params, state)] on the store. *)
Definition tweenProps (currentTime timestamp : Z) (duration : Q)
    (easingFunc : EasingFunc) (originalState to current : loc) (h : heap) : heap :=
  foldl (tweenProps_body currentTime timestamp duration easingFunc originalState to current)
        h (own_props h current).

(** ** Function values, side effects and timers *)

(** A function value: [function () {}], or a function of the caller. *)
Inductive fn : Type :=
| noop
| user_fn (id : nat).

Global Instance fn_eq_dec : EqDecision fn.
Proof. solve_decision. Defined.

(** The observable effects of the engine, in the order they happen. *)
Inductive Event : Type :=
| EvFilter (filterName group : string) (f : fn)
| EvTweenProps (currentTime : Z)
| EvHook (hookName : string) (f : fn)
| EvStep (f : fn)
| EvCallback (f : fn)
| EvSetTimeout (handle : nat) (delay : num).

(** ** Run parameters and run state *)

(** [_tweenParams] once [tween] has filled it in.  [owner] and [hook] are
    back references to the instance and to its [_hook], and
    [tweenController] is a closure over this object and [_state]: they are
    read through the instance.  [fps] is the property [timeoutHandler] reads. *)
Module TweenParams.
Record t : Type := mk {
  step : fn;
  to : loc;
  duration : Q;
  callback : fn;
  easing : string;
  timestamp : Z;
  easingFunc : EasingFunc;
  originalState : loc;
  fps : option Q
}.

Definition set_timestamp (ts : Z) (p : t) : t :=
  mk (step p) (to p) (duration p) (callback p) (easing p) ts
     (easingFunc p) (originalState p) (fps p).
End TweenParams.

(** [_state].  A property the object does not have yet reads as [undefined]:
  [None] for [loopId], [current] and [pausedAtTime] ([null] is [None] too:
  [pausedAtTime] is read by [resume] only after [pause] or [tween] wrote it),
  [false] for the two flags, which are read as conditions only. *)
Module State.
Record t : Type := mk {
  loopId : option nat;
  current : option loc;
  pausedAtTime : option Z;
  isAnimating : bool;
  isPaused : bool
}.

Definition set_loopId (v : option nat) (s : t) : t :=
  mk v (current s) (pausedAtTime s) (isAnimating s) (isPaused s).
Definition set_isAnimating (v : bool) (s : t) : t :=
  mk (loopId s) (current s) (pausedAtTime s) v (isPaused s).
Definition set_paused (at_time : Z) (s : t) : t :=
  mk (loopId s) (current s) (Some at_time) (isAnimating s) true.
End State.

(** A [Tweenable] instance after [init].  [_tweenParams] is [None] while the
    object is the literal [{owner: this, hook: this._hook}] of [init]. *)
Record Tweenable : Type := mkTweenable {
  _hook : gmap string (list fn);
  _tweenParams : option TweenParams.t;
  _state : State.t;
  fps : Q;
  easing : string;
  duration : Q
}.

Definition set_hook (hk : gmap string (list fn)) (T : Tweenable) : Tweenable :=
  mkTweenable hk (_tweenParams T) (_state T) (fps T) (easing T) (duration T).
Definition set_tweenParams (p : option TweenParams.t) (T : Tweenable) : Tweenable :=
  mkTweenable (_hook T) p (_state T) (fps T) (easing T) (duration T).
Definition set_state (s : State.t) (T : Tweenable) : Tweenable :=
  mkTweenable (_hook T) (_tweenParams T) s (fps T) (easing T) (duration T).

(** The options of [init]. *)
Record Options : Type := mkOptions {
  opt_fps : option Q;
  opt_easing : option string;
  opt_duration : option Q
}.

(** The configuration object of the longhand call of [tween]. *)
Record TweenConfig : Type := mkTweenConfig {
  cfg_from : option loc;
  cfg_to : option loc;
  cfg_duration : option Q;
  cfg_easing : option string;
  cfg_step : option fn;
  cfg_callback : option fn
}.

(** The two ways [tween] is called: [tween (from, to, duration, callback,
    easing)] with [to] present, or [tween (config)]. *)
Inductive TweenArgs : Type :=
| Shorthand (from : option loc) (to : loc) (duration : option Q)
            (callback : option fn) (easing : option string)
| Longhand (config : TweenConfig).

(** The controller [tween] returns: its methods are closures over the
    instance's [_tweenParams] and [_state]. *)
Inductive Tween : Type := tweenController.

(** ** The world: the store, the host's timers, the registries, one instance

    [pending] holds the timers set and not yet run or cleared, with the delay
    each was set with; the host hands out the handles [next_handle], from 1 on
    (a timer handle is never 0).  [log] records the effects as they happen. *)
Record World : Type := mkWorld {
  store : heap;
  next_loc : loc;
  pending : list (nat * num);
  next_handle : nat;
  log : list Event;
  filter : list (string * gmap string fn);
  formula : gmap string EasingFunc;
  self : Tweenable
}.

Definition set_store (h : heap) (w : World) : World :=
  mkWorld h (next_loc w) (pending w) (next_handle w) (log w) (filter w) (formula w) (self w).
Definition set_pending (ts : list (nat * num)) (w : World) : World :=
  mkWorld (store w) (next_loc w) ts (next_handle w) (log w) (filter w) (formula w) (self w).
Definition set_self (T : Tweenable) (w : World) : World :=
  mkWorld (store w) (next_loc w) (pending w) (next_handle w) (log w) (filter w) (formula w) T.
Definition emit (e : Event) (w : World) : World :=
  mkWorld (store w) (next_loc w) (pending w) (next_handle w) (log w ++ [e]) (filter w)
          (formula w) (self w).

(** [{}]: a new object. *)
Definition alloc (w : World) : loc * World :=
  (next_loc w,
   mkWorld (<[next_loc w := ∅]> (store w)) (S (next_loc w)) (pending w) (next_handle w)
           (log w) (filter w) (formula w) (self w)).

(** [setTimeout (handler, delay)]; every handler the engine passes is
    [timeoutHandler (params, state)] of the instance. *)
Definition setTimeout (delay : num) (w : World) : nat * World :=
  (next_handle w,
   mkWorld (store w) (next_loc w) (pending w ++ [(next_handle w, delay)])
           (S (next_handle w)) (log w ++ [EvSetTimeout (next_handle w) delay])
           (filter w) (formula w) (self w)).

(** [clearTimeout (id)]: an [undefined] or unknown handle clears nothing. *)
Definition clearTimeout (id : option nat) (w : World) : World :=
  set_pending (List.filter (fun t => negb (bool_decide (Some (fst t) = id))) (pending w)) w.

(** [scheduleUpdate (handler, fps)]: [setTimeout (handler, 1000 / fps)]. *)
Definition scheduleUpdate (fps : option Q) (w : World) : nat * World :=
  setTimeout (num_div (Fin 1000) (to_number (Fin <$> fps))) w.

(** ** The engine *)

Section Engine.

(** What the functions of the caller (callbacks, hooks, filters) do: each
    receives the objects it is applied to and acts on the object store. *)
Variable call : nat -> list loc -> heap -> heap.

Definition invoke (f : fn) (args : list loc) (h : heap) : heap :=
  match f with
  | noop => h
  | user_fn id => call id args h
  end.

(** One call of a function value, recorded as [ev]. *)
Definition apply_fn (ev : Event) (f : fn) (args : list loc) (w : World) : World :=
  emit ev (set_store (invoke f args (store w)) w).

(** [invokeHook (hookName, hooks, applyTo, args)]; the caller has checked
    that [hooks[hookName]] is there. *)
Definition invokeHook (hookName : string) (hooks : gmap string (list fn))
    (args : list loc) (w : World) : World :=
  foldl (fun w f => apply_fn (EvHook hookName f) f args w) w
        (default [] (hooks !! hookName)).

(** [applyFilter (filterName, applyTo, args)]: [each] group of
    [Tweenable.prototype.filter], in the order of the registry. *)
Definition applyFilter (filterName : string) (args : list loc) (w : World) : World :=
  foldl (fun w (g : string * gmap string fn) =>
           match g.2 !! filterName with
           | Some f => apply_fn (EvFilter filterName g.1 f) f args w
           | None => w
           end) w (filter w).

(** [Tween.stop (gotoEnd)].  The controller exists once [tween] has filled in
    the run parameters and [current]; [None] stands for a call without them,
    which no program can make. *)
Definition stop (gotoEnd : bool) (w : World) : option World :=
  match _tweenParams (self w), State.current (_state (self w)) with
  | Some params, Some current =>
      let w := clearTimeout (State.loopId (_state (self w))) w in
      if gotoEnd then
        let w := set_store (simpleCopy current (TweenParams.to params) (store w)) w in
        let w := set_self (set_state (State.set_isAnimating false (_state (self w))) (self w)) w in
        Some (apply_fn (EvCallback (TweenParams.callback params))
                       (TweenParams.callback params) [current] w)
      else Some w
  | _, _ => None
  end.

(** [Tween.pause ()] at time [now ()]. *)
Definition pause (now : Z) (w : World) : World :=
  let w := clearTimeout (State.loopId (_state (self w))) w in
  set_self (set_state (State.set_paused now (_state (self w))) (self w)) w.

(** [Tween.resume ()]: [scheduleUpdate] is called with the handler alone. *)
Definition resume (w : World) : option World :=
  match _tweenParams (self w) with
  | Some params =>
      let params :=
        if State.isPaused (_state (self w)) then
          TweenParams.set_timestamp
            (TweenParams.timestamp params
             + (default 0%Z (State.pausedAtTime (_state (self w)))
                - TweenParams.timestamp params))%Z params
        else params in
      let w := set_self (set_tweenParams (Some params) (self w)) w in
      Some (scheduleUpdate None w).2
  | None => None
  end.

(** [Tween.get ()] *)
Definition get (w : World) : option loc := State.current (_state (self w)).

(** The test of [timeoutHandler]:
    [currentTime < params.timestamp + params.duration && state.isAnimating]. *)
Definition continues (currentTime : Z) (params : TweenParams.t) (state : State.t) : bool :=
  Qltb (inject_Z currentTime)
       (inject_Z (TweenParams.timestamp params) + TweenParams.duration params)
  && State.isAnimating state.

(** [timeoutHandler (params, state)] at time [now ()]; [None] as for [stop]. *)
Definition timeoutHandler (now : Z) (w : World) : option World :=
  match _tweenParams (self w), State.current (_state (self w)) with
  | Some params, Some current =>
      if continues now params (_state (self w)) then
        let args := [current; TweenParams.originalState params; TweenParams.to params] in
        let w := applyFilter "beforeTween" args w in
        let w := emit (EvTweenProps now)
                   (set_store (tweenProps now (TweenParams.timestamp params)
                                 (TweenParams.duration params) (TweenParams.easingFunc params)
                                 (TweenParams.originalState params) (TweenParams.to params)
                                 current (store w)) w) in
        let w := applyFilter "afterTween" args w in
        let w := match _hook (self w) !! "step" with
                 | Some _ => invokeHook "step" (_hook (self w)) [current] w
                 | None => w
                 end in
        let w := apply_fn (EvStep (TweenParams.step params)) (TweenParams.step params)
                          [current] w in
        let '(id, w) := scheduleUpdate (TweenParams.fps params) w in
        Some (set_self (set_state (State.set_loopId (Some id) (_state (self w))) (self w)) w)
      else stop true w
  | _, _ => None
  end.

(** [Tweenable.init (options)] *)
Definition init (options : Options) : Tweenable :=
  mkTweenable ∅ None (State.mk None None None false false)
              (or_num (opt_fps options) 30)
              (or_str (opt_easing options) "linear")
              (or_num (opt_duration options) 500).

(** [x || {}] on an object that may be missing. *)
Definition or_new (o : option loc) (w : World) : loc * World :=
  match o with
  | Some l => (l, w)
  | None => alloc w
  end.

(** The normalization of the arguments of [tween], by the way it was
    invoked: the [step] and [callback] functions, the objects [current] and
    [to], the duration and the name of the easing. *)
Definition normalize (this : Tweenable) (args : TweenArgs) (w : World)
    : fn * fn * loc * loc * Q * string * World :=
  let this_duration := duration this in
  let this_easing := easing this in
  match args with
  | Shorthand from to duration callback easing =>
      let '(current, w) := or_new from w in
      (noop, default noop callback, current, to,
       or_num duration this_duration, or_str easing this_easing, w)
  | Longhand config =>
      let '(current, w) := or_new (cfg_from config) w in
      let '(to, w) := or_new (cfg_to config) w in
      (default noop (cfg_step config), default noop (cfg_callback config), current, to,
       or_num (cfg_duration config) this_duration,
       or_str (cfg_easing config) this_easing, w)
  end.

(** [Tweenable.tween (from, to, duration, callback, easing)] at time
    [now ()]; [None] is [return;].  [this.formula[easing]] is read among the
    registry's own properties, and the registry holds [linear]: an easing
    name that only [Object.prototype] defines, and a registry without
    [linear], are outside this definition. *)
Definition tween (now : Z) (args : TweenArgs) (w : World) : option Tween * World :=
  let this := self w in
  if State.isAnimating (_state this) then (None, w)
  else
    let old_fps := p ← _tweenParams this; TweenParams.fps p in
    let '(_, w) := alloc w in
    let '(step, callback, current, to, duration, easing, w) := normalize this args w in
    let easingFunc :=
      default (default linear (formula w !! "linear")) (formula w !! easing) in
    let '(originalState, w) := alloc w in
    let w := set_store (simpleCopy originalState current (store w)) w in
    let w := applyFilter "tweenCreated" [current; originalState; to] w in
    let params := TweenParams.mk step to duration callback easing now easingFunc
                                 originalState old_fps in
    let state := State.mk (Some 0) (Some current) None true (State.isPaused (_state this)) in
    let w := set_self (set_state state (set_tweenParams (Some params) this)) w in
    (Some tweenController, (scheduleUpdate (Some (fps this)) w).2).

(** [Tweenable.hookAdd (hookName, hookFunc)], on a registry whose
    [hasOwnProperty] is the method it inherits.  Once a list is registered
    under the name [hasOwnProperty] the test of the source is a call of that
    list and raises, and under the name [__proto__] the assignment replaces the
    prototype of the registry: these two names are outside this definition. *)
Definition hookAdd (hookName : string) (hookFunc : fn) (w : World) : World :=
  set_self (set_hook (<[hookName := (default [] (_hook (self w) !! hookName) ++ [hookFunc])%list]>
                        (_hook (self w))) (self w)) w.

(** [i++] on a number holding an integer: exact below [2^53], where the
    successor is no longer a double and the sum rounds back to [2^53]. *)
Definition js_incr (i : Z) : Z := if (i <? 2 ^ 53)%Z then (i + 1)%Z else i.

(** The loop of [hookRemove],
    [for (i = length; i >= 0; i++) if (a[i] === hookFunc) a.splice (i, 1)],
    run for at most [fuel] tests of its condition; [None]: still running. *)
Fixpoint hookRemove_loop (fuel : nat) (i : Z) (a : list fn) (hookFunc : fn)
    : option (list fn) :=
  match fuel with
  | O => None
  | S fuel =>
      if (0 <=? i)%Z then
        hookRemove_loop fuel (js_incr i)
          (if bool_decide (a !! Z.to_nat i = Some hookFunc) then delete (Z.to_nat i) a else a)
          hookFunc
      else Some a
  end.

(** [Tweenable.hookRemove (hookName, hookFunc)]; [None]: still running when
    the fuel is spent.  As for [hookAdd], the registry's [hasOwnProperty] is
    the method it inherits. *)
Definition hookRemove (fuel : nat) (hookName : string) (hookFunc : option fn) (w : World)
    : option World :=
  match _hook (self w) !! hookName with
  | None => Some w
  | Some a =>
      match hookFunc with
      | None => Some (set_self (set_hook (<[hookName := []]> (_hook (self w))) (self w)) w)
      | Some f =>
          a' ← hookRemove_loop fuel (Z.of_nat (length a)) a f;
          Some (set_self (set_hook (<[hookName := a']> (_hook (self w))) (self w)) w)
      end
  end.

(** The host runs the pending timer [id] at time [now]: the timer leaves the
    queue and its handler, [timeoutHandler (params, state)], runs. *)
Definition fire (id : nat) (now : Z) (w : World) : option World :=
  if bool_decide (id ∈ (pending w).*1) then timeoutHandler now (clearTimeout (Some id) w)
  else None.

(** A run of [tween] calls, one after the other. *)
Fixpoint tweens (calls : list (Z * TweenArgs)) (w : World) : list (option Tween) * World :=
  match calls with
  | [] => ([], w)
  | (now, args) :: calls =>
      let '(r, w) := tween now args w in
      let '(rs, w) := tweens calls w in
      (r :: rs, w)
  end.

(** The store after the filters [filterName] of the registry [fs] ran. *)
Definition run_filters (filterName : string) (args : list loc)
    (fs : list (string * gmap string fn)) (h : heap) : heap :=
  foldl (fun h (g : string * gmap string fn) =>
           match g.2 !! filterName with
           | Some f => invoke f args h
           | None => h
           end) h fs.

(** The worlds the engine can be in: a new instance over any store and
    registries, then any calls of its methods, timers run by the host, and
    writes of the caller to the store. *)
Inductive reachable : World -> Prop :=
| reach_init h n fs F options :
    reachable (mkWorld h n [] 1 [] fs F (init options))
| reach_tween now args w :
    reachable w -> reachable (tween now args w).2
| reach_timeoutHandler now w w' :
    reachable w -> timeoutHandler now w = Some w' -> reachable w'
| reach_stop gotoEnd w w' :
    reachable w -> stop gotoEnd w = Some w' -> reachable w'
| reach_pause now w :
    reachable w -> reachable (pause now w)
| reach_resume w w' :
    reachable w -> resume w = Some w' -> reachable w'
| reach_hookAdd hookName hookFunc w :
    reachable w -> reachable (hookAdd hookName hookFunc w)
| reach_hookRemove fuel hookName hookFunc w w' :
    reachable w -> hookRemove fuel hookName hookFunc w = Some w' -> reachable w'
| reach_write h w :
    reachable w -> reachable (set_store h w)
| reach_timer id w :
    reachable w -> reachable (clearTimeout (Some id) w).

End Engine.

(** The events of the filters [filterName] of a registry, in its order. *)
Definition filter_events (filterName : string) (fs : list (string * gmap string fn))
    : list Event :=
  omap (fun g : string * gmap string fn => EvFilter filterName g.1 <$> g.2 !! filterName) fs.

(** The events of the hooks registered under [hookName], in their order. *)
Definition hook_events (hookName : string) (hooks : gmap string (list fn)) : list Event :=
  EvHook hookName <$> default [] (hooks !! hookName).

(** No code has assigned [fps] on the run parameters. *)
Definition fps_unset (w : World) : Prop :=
  forall params, _tweenParams (self w) = Some params -> TweenParams.fps params = None.

(** The [from] argument of a call of [tween]. *)
Definition args_from (args : TweenArgs) : option loc :=
  match args with
  | Shorthand from _ _ _ _ => from
  | Longhand config => cfg_from config
  end.

(** ** A sample run: [from = {x: 0}], [to = {x: 100}], [duration = 1000] *)

Definition no_calls : nat -> list loc -> heap -> heap := fun _ _ h => h.

Definition sample_from : loc := 0.
Definition sample_to : loc := 1.

Definition sample_store : heap :=
  {[ sample_from := {[ "x" := Fin 0 ]}; sample_to := {[ "x" := Fin 100 ]} ]}.

(** [new Tweenable ().init ({})], the registries as the library leaves them. *)
Definition sample_world : World :=
  mkWorld sample_store 2 [] 1 [] [] {[ "linear" := linear ]}
          (init (mkOptions None None None)).

Definition sample_args : TweenArgs :=
  Shorthand (Some sample_from) sample_to (Some 1000%Q) None None.

(** [tween (from, to, 1000)] at time 0. *)
Definition sample_started : World := (tween no_calls 0 sample_args sample_world).2.

(** The first tick, 100 ms after the start. *)
Definition sample_ticked : option World := fire no_calls 1 100 sample_started.

(** [pause ()] at 200 ms, [resume ()] 500 ms later, and the tick that
    [resume] scheduled, at 700 ms. *)
Definition sample_resumed : option World :=
  w ← sample_ticked; w ← resume (pause 200 w); fire no_calls 3 700 w.

(** The tick at 1199 ms and the one at 1200 ms. *)
Definition sample_late : option World := w ← sample_resumed; fire no_calls 4 1199 w.
Definition sample_done : option World := w ← sample_late; fire no_calls 5 1200 w.

(** [stop ()] after the first tick, and [stop ()] at once after [tween]. *)
Definition sample_stopped : option World := w ← sample_ticked; stop no_calls false w.
Definition sample_stopped_early : option World := stop no_calls false sample_started.

(** The run parameters of the sample run, as [tween] fills them in. *)
Definition sample_params : TweenParams.t :=
  TweenParams.mk noop sample_to 1000 noop "linear" 0 linear 3 None.

Definition sample_ticked_world : World := default sample_started sample_ticked.
Definition sample_stopped_world : World := default sample_started sample_stopped.

(** The tick that [tween] scheduled, run after the early [stop ()]. *)
Definition sample_early_tick : option World :=
  w ← sample_stopped_early; fire no_calls 1 100 w.

(** The same run with a filter group, a [step] hook, a [step] callback and
    a completion callback, called the longhand way. *)
Definition hooked_world : World :=
  hookAdd "step" (user_fn 3)
    (mkWorld sample_store 2 [] 1 []
       [("group", {[ "beforeTween" := user_fn 1; "afterTween" := user_fn 2 ]})]
       {[ "linear" := linear ]} (init (mkOptions None None None))).

Definition hooked_args : TweenArgs :=
  Longhand (mkTweenConfig (Some sample_from) (Some sample_to) (Some 1000%Q) None
                          (Some (user_fn 4)) (Some (user_fn 5))).

Definition hooked_started : World := (tween no_calls 0 hooked_args hooked_world).2.

Definition hooked_params : TweenParams.t :=
  TweenParams.mk (user_fn 4) sample_to 1000 (user_fn 5) "linear" 0 linear 3 None.

(** Observations of a world that a run may or may not have reached. *)
Definition has_value (o : option World) (l : loc) (prop : string) (q : Q) : Prop :=
  match o with
  | Some w => num_eq (to_number (get_prop (store w) l prop)) (Fin q)
  | None => False
  end.

Definition animating (o : option World) : option bool :=
  (fun w => State.isAnimating (_state (self w))) <$> o.

Definition timers (o : option World) : option (list (nat * num)) := pending <$> o.

(** The value §4.3 gives a property of [current] after one interpolation
    step over the store [h]: eased when [to] has the property too, kept when
    it has not, and absent when [current] has no such property. *)
Definition interpolated_value (currentTime timestamp : Z) (duration : Q)
    (easingFunc : EasingFunc) (originalState to current : loc)
    (h : heap) (prop : string) : option num :=
  match get_prop h current prop, get_prop h to prop with
  | Some _, Some target =>
      Some (easingFunc (Fin (inject_Z (currentTime - timestamp)))
                       (to_number (get_prop h originalState prop))
                       (num_sub target (to_number (get_prop h originalState prop)))
                       (Fin duration))
  | Some v, None => Some v
  | None, _ => None
  end.

(** The parts of the world a run of callbacks leaves alone. *)
Definition same_engine (w w' : World) : Prop :=
  self w' = self w ∧ pending w' = pending w ∧ next_handle w' = next_handle w
  ∧ next_loc w' = next_loc w ∧ filter w' = filter w ∧ formula w' = formula w.

(** The parts of the world that allocating an object leaves alone. *)
Definition same_engine_but_store (w w' : World) : Prop :=
  self w' = self w ∧ pending w' = pending w ∧ next_handle w' = next_handle w
  ∧ filter w' = filter w ∧ formula w' = formula w ∧ log w' = log w.

(** The store after the hooks [fs] ran on [args], in their order. *)
Definition run_hooks (call : nat -> list loc -> heap -> heap) (args : list loc)
    (fs : list fn) (h : heap) : heap :=
  foldl (fun h f => invoke call f args h) h fs.

(** Timer handles are positive and below the next one the host hands out,
    the pending ones and the one recorded in [loopId] if it is not 0. *)
Definition handles_fresh (w : World) : Prop :=
  1 <= next_handle w
  ∧ (forall t, t ∈ pending w -> 1 <= t.1 < next_handle w)
  ∧ (forall id, State.loopId (_state (self w)) = Some id -> id < next_handle w).

(** Neither the instance nor a run has a zero frame rate or duration. *)
Definition rates_nonzero (w : World) : Prop :=
  ¬ (fps (self w) == 0)%Q
  ∧ ¬ (duration (self w) == 0)%Q
  ∧ (forall params, _tweenParams (self w) = Some params ->
       ¬ (TweenParams.duration params == 0)%Q).

(** Hooks registered one after the other under one name. *)
Definition hookAdd_all (hookName : string) (fs : list fn) (w : World) : World :=
  foldl (fun w f => hookAdd hookName f w) w fs.

(** A run with two properties of which [to] has one, and one property that
    only [to] has: [from = {x: 0, y: 5}], [to = {x: 10, z: 7}]. *)
Definition partial_from : loc := 0.
Definition partial_to : loc := 1.

Definition partial_store : heap :=
  {[ partial_from := {[ "x" := Fin 0; "y" := Fin 5 ]};
     partial_to := {[ "x" := Fin 10; "z" := Fin 7 ]} ]}.

Definition partial_world : World :=
  mkWorld partial_store 2 [] 1 [] [] {[ "linear" := linear ]}
          (init (mkOptions (Some 0%Q) (Some "") (Some 0%Q))).

Definition partial_args : TweenArgs :=
  Shorthand (Some partial_from) partial_to (Some 0%Q) (Some (user_fn 9)) (Some "bounce").

Definition partial_started : World := (tween no_calls 0 partial_args partial_world).2.

(** The [duration], [easing] and [to] arguments of a call of [tween]. *)
Definition args_duration (args : TweenArgs) : option Q :=
  match args with
  | Shorthand _ _ duration _ _ => duration
  | Longhand config => cfg_duration config
  end.

Definition args_easing (args : TweenArgs) : option string :=
  match args with
  | Shorthand _ _ _ _ easing => easing
  | Longhand config => cfg_easing config
  end.

(** The sample run completed by [stop (true)] at once, resumed without a
    pause, and paused at 200 ms and then completed. *)
Definition sample_completed : World := default sample_started (stop no_calls true sample_started).
Definition sample_resumed_early : World := default sample_started (resume sample_started).
Definition sample_paused_done : World :=
  default sample_started (stop no_calls true (pause 200 sample_started)).

(** After the early [stop ()]: the tick that [tween] scheduled, run at
    1000 ms, and the result of a call of [tween] after it. *)
Definition sample_early_done : option World :=
  w ← sample_stopped_early; fire no_calls 1 1000 w.

Definition sample_early_retween : option (option Tween) :=
  (fun w => (tween no_calls 1001 sample_args w).1) <$> sample_early_done.

(** A hook registry whose [hasOwnProperty] is the method it inherits: no
    list is registered under that name, nor under [__proto__]; and a hook name
    other than these two. *)
Definition plain_registry (hooks : gmap string (list fn)) : Prop :=
  hooks !! "hasOwnProperty" = None ∧ hooks !! "__proto__" = None.

Definition plain_hook_name (hookName : string) : Prop :=
  hookName ≠ "hasOwnProperty" ∧ hookName ≠ "__proto__".

(** * Properties *)

Ltac split_all := repeat match goal with |- _ ∧ _ => split end.
Ltac by_evaluation := vm_compute; reflexivity.

(** ** The linear formula *)

(** C10. [linear (t, b, c, d)] is [c * t / d + b] whenever [d] is not zero;
    under exact arithmetic it is [b] at [t = 0] and [b + c] at [t = d]. *)
Theorem linear_exact (t b c d : Q) :
  ¬ (d == 0)%Q ->
  linear (Fin t) (Fin b) (Fin c) (Fin d) = Fin (c * t / d + b)
  ∧ num_eq (linear (Fin 0) (Fin b) (Fin c) (Fin d)) (Fin b)
  ∧ num_eq (linear (Fin d) (Fin b) (Fin c) (Fin d)) (Fin (b + c)).
Proof.
  intros Hd.
  assert (Hz : Qeq_bool d 0 = false).
  { destruct (Qeq_bool d 0) eqn:E; [|reflexivity].
    apply Qeq_bool_iff in E. contradiction. }
  unfold linear, num_mul, num_div, num_add. rewrite Hz.
  repeat split; simpl.
  - field. exact Hd.
  - field. exact Hd.
Qed.

Lemma linear_exact_witness :
  linear (Fin 250) (Fin 0) (Fin 100) (Fin 1000) = Fin (100 * 250 / 1000 + 0)
  ∧ num_eq (linear (Fin 0) (Fin 0) (Fin 100) (Fin 1000)) (Fin 0)
  ∧ num_eq (linear (Fin 1000) (Fin 0) (Fin 100) (Fin 1000)) (Fin (0 + 100)).
Proof. apply (linear_exact 250 0 100 1000). discriminate. Defined.

(** ** Removing a hook *)

Lemma js_incr_ge (i : Z) : (i <= js_incr i)%Z.
Proof. unfold js_incr. destruct (i <? 2 ^ 53)%Z; lia. Qed.

(** From an index at or past the end of the array the loop never leaves:
    the index stays non-negative, and no element is ever compared equal. *)
Lemma hookRemove_loop_runs (fuel : nat) (i : Z) (a : list fn) (hookFunc : fn) :
  (Z.of_nat (length a) <= i)%Z -> hookRemove_loop fuel i a hookFunc = None.
Proof.
  revert i. induction fuel as [|fuel IH]; intros i Hi; [reflexivity|].
  simpl. assert (H0 : (0 <=? i)%Z = true) by (apply Z.leb_le; lia).
  rewrite H0. rewrite bool_decide_eq_false_2.
  - apply IH. pose proof (js_incr_ge i). lia.
  - rewrite lookup_ge_None_2; [discriminate | lia].
Qed.

(** C3. [hookRemove (hookName, hookFunc)] on a registered hook name and a
    callback: whatever the fuel, the loop is still running when it is spent
    (the call does not return, and the list is not changed); the two early
    returns are the only ways out. *)
Theorem hookRemove_never_returns (fuel : nat) (hookName : string) (hookFunc : fn)
    (a : list fn) (w : World) :
  _hook (self w) !! hookName = Some a ->
  hookRemove fuel hookName (Some hookFunc) w = None.
Proof.
  intros Ha. unfold hookRemove. rewrite Ha.
  rewrite hookRemove_loop_runs; [reflexivity | lia].
Qed.

Lemma hookRemove_never_returns_witness :
  hookRemove 1000 "step" (Some (user_fn 7)) (hookAdd "step" (user_fn 7) sample_world) = None.
Proof.
  apply (hookRemove_never_returns 1000 "step" (user_fn 7) [user_fn 7]
           (hookAdd "step" (user_fn 7) sample_world)).
  reflexivity.
Defined.

(** Removing under a name that has no list returns at once, nothing changed;
    without a callback the list is emptied. *)
Lemma hookRemove_unregistered (fuel : nat) (hookName : string) (hookFunc : option fn)
    (w : World) :
  _hook (self w) !! hookName = None -> hookRemove fuel hookName hookFunc w = Some w.
Proof. intros H. unfold hookRemove. rewrite H. reflexivity. Qed.

(** ** The object store *)

Lemma get_obj_insert (h : heap) (l l' : loc) (o : obj) :
  get_obj (<[l := o]> h) l' = if decide (l = l') then o else get_obj h l'.
Proof.
  unfold get_obj. rewrite lookup_insert. destruct (decide (l = l')); reflexivity.
Qed.

Lemma get_prop_set_prop (h : heap) (l l' : loc) (k k' : string) (v : num) :
  get_prop (set_prop h l k v) l' k'
  = if decide (l = l' ∧ k = k') then Some v else get_prop h l' k'.
Proof.
  unfold get_prop, set_prop. rewrite get_obj_insert.
  destruct (decide (l = l')) as [->|Hl].
  - rewrite lookup_insert.
    destruct (decide (k = k')) as [->|Hk].
    + rewrite decide_True by done. reflexivity.
    + rewrite decide_False by (intros [_ ?]; done). reflexivity.
  - rewrite decide_False by (intros [? _]; done). reflexivity.
Qed.

Lemma get_obj_set_prop_ne (h : heap) (l l' : loc) (k : string) (v : num) :
  l ≠ l' -> get_obj (set_prop h l k v) l' = get_obj h l'.
Proof.
  intros Hl. unfold set_prop. rewrite get_obj_insert.
  rewrite decide_False by done. reflexivity.
Qed.

Lemma get_obj_ext (h h' : heap) (l : loc) :
  (forall k, get_prop h' l k = get_prop h l k) -> get_obj h' l = get_obj h l.
Proof. intros H. apply map_eq. exact H. Qed.

Lemma own_props_elem (h : heap) (l : loc) (k : string) :
  k ∈ own_props h l <-> is_Some (get_prop h l k).
Proof.
  unfold own_props, get_prop. rewrite list_elem_of_fmap. split.
  - intros [[k' v] [-> Hin]]. apply elem_of_map_to_list in Hin. eauto.
  - intros [v Hv]. exists (k, v). split; [reflexivity|].
    apply elem_of_map_to_list. exact Hv.
Qed.

Lemma own_props_NoDup (h : heap) (l : loc) : NoDup (own_props h l).
Proof. apply NoDup_fst_map_to_list. Qed.

Lemma hasOwnProperty_true (h : heap) (l : loc) (k : string) :
  hasOwnProperty h l k = true <-> is_Some (get_prop h l k).
Proof. unfold hasOwnProperty. apply bool_decide_eq_true. Qed.

(** ** The interpolation step *)

Section Interpolation.

Variables (currentTime timestamp : Z) (duration : Q) (easingFunc : EasingFunc).
Variables (originalState to current : loc).

Let body := tweenProps_body currentTime timestamp duration easingFunc originalState to current.
Let value := interpolated_value currentTime timestamp duration easingFunc originalState to current.

Lemma tweenProps_body_other (h : heap) (k k' : string) (l : loc) :
  k ≠ k' -> get_prop (body h k) l k' = get_prop h l k'.
Proof.
  intros Hk. unfold body, tweenProps_body.
  destruct (hasOwnProperty h current k && hasOwnProperty h to k); [|reflexivity].
  rewrite get_prop_set_prop. rewrite decide_False by (intros [_ ?]; done). reflexivity.
Qed.

Lemma tweenProps_body_elsewhere (h : heap) (k : string) (l : loc) :
  l ≠ current -> get_obj (body h k) l = get_obj h l.
Proof.
  intros Hl. unfold body, tweenProps_body.
  destruct (hasOwnProperty h current k && hasOwnProperty h to k); [|reflexivity].
  apply get_obj_set_prop_ne. done.
Qed.

Lemma tweenProps_body_same (h : heap) (k : string) :
  get_prop (body h k) current k = value h k.
Proof.
  unfold body, tweenProps_body, value, interpolated_value, hasOwnProperty.
  destruct (get_prop h current k) as [v|] eqn:Hc;
    destruct (get_prop h to k) as [tv|] eqn:Ht;
    repeat case_bool_decide; simpl;
    repeat match goal with
           | H : ¬ is_Some (Some _) |- _ => exfalso; apply H; eauto
           | H : is_Some None |- _ => destruct H; discriminate
           end;
    try exact Hc.
  rewrite get_prop_set_prop. rewrite decide_True by done. reflexivity.
Qed.

Lemma interpolated_value_ext (h h' : heap) (k : string) :
  (forall l, get_prop h' l k = get_prop h l k) -> value h' k = value h k.
Proof.
  intros H. unfold value, interpolated_value. rewrite !H. reflexivity.
Qed.

Lemma tweenProps_fold_other (ks : list string) (h : heap) (k : string) (l : loc) :
  k ∉ ks -> get_prop (foldl body h ks) l k = get_prop h l k.
Proof.
  revert h. induction ks as [|k0 ks IH]; intros h Hk; [reflexivity|].
  simpl. apply not_elem_of_cons in Hk as [Hne Hk].
  rewrite IH by exact Hk. apply tweenProps_body_other. done.
Qed.

Lemma tweenProps_fold_elsewhere (ks : list string) (h : heap) (l : loc) :
  l ≠ current -> get_obj (foldl body h ks) l = get_obj h l.
Proof.
  intros Hl. revert h. induction ks as [|k0 ks IH]; intros h; [reflexivity|].
  simpl. rewrite IH. apply tweenProps_body_elsewhere. exact Hl.
Qed.

Lemma tweenProps_fold_in (ks : list string) (h : heap) (k : string) :
  NoDup ks -> k ∈ ks -> get_prop (foldl body h ks) current k = value h k.
Proof.
  revert h. induction ks as [|k0 ks IH]; intros h Hnd Hk.
  - apply elem_of_nil in Hk. contradiction.
  - apply NoDup_cons in Hnd as [Hk0 Hnd]. simpl.
    destruct (decide (k = k0)) as [->|Hne].
    + rewrite tweenProps_fold_other by exact Hk0. apply tweenProps_body_same.
    + apply elem_of_cons in Hk as [?|Hk]; [contradiction|].
      rewrite IH by assumption. apply interpolated_value_ext.
      intros l. apply tweenProps_body_other. done.
Qed.

Lemma tweenProps_lookup (h : heap) (k : string) :
  get_prop (tweenProps currentTime timestamp duration easingFunc originalState to current h)
           current k
  = value h k.
Proof.
  unfold tweenProps. fold body.
  destruct (decide (k ∈ own_props h current)) as [Hin|Hout].
  - apply tweenProps_fold_in; [apply own_props_NoDup | exact Hin].
  - rewrite tweenProps_fold_other by exact Hout.
    unfold value, interpolated_value.
    destruct (get_prop h current k) eqn:Hc; [|reflexivity].
    exfalso. apply Hout. apply own_props_elem. rewrite Hc. eauto.
Qed.

Lemma tweenProps_elsewhere (h : heap) (l : loc) :
  l ≠ current ->
  get_obj (tweenProps currentTime timestamp duration easingFunc originalState to current h) l
  = get_obj h l.
Proof. intros Hl. unfold tweenProps. fold body. apply tweenProps_fold_elsewhere. exact Hl. Qed.

Lemma tweenProps_dom (h : heap) :
  dom (get_obj (tweenProps currentTime timestamp duration easingFunc originalState to
                           current h) current)
  = dom (get_obj h current).
Proof.
  apply set_eq. intros k. rewrite !elem_of_dom.
  change (is_Some (get_prop (tweenProps currentTime timestamp duration easingFunc
                               originalState to current h) current k)
          <-> is_Some (get_prop h current k)).
  rewrite tweenProps_lookup. unfold value, interpolated_value.
  destruct (get_prop h current k); destruct (get_prop h to k); split; eauto;
    intros [? ?]; done.
Qed.

End Interpolation.

(** C6. One interpolation step maps [current] pointwise: a property that
    [current] and [to] both have becomes [easingFunc (currentTime - timestamp,
    originalState[prop], to[prop] - originalState[prop], duration)], a property
    of [current] that [to] has not keeps its value, and a property that
    [current] has not is not created, whether [to] has it or not; so the
    properties of [current] are the same after the step, and after any number
    of steps. *)
Theorem tweenProps_pointwise (currentTime timestamp : Z) (duration : Q)
    (easingFunc : EasingFunc) (originalState to current : loc) (h : heap) :
  (forall prop,
     get_prop (tweenProps currentTime timestamp duration easingFunc originalState to
                          current h) current prop
     = interpolated_value currentTime timestamp duration easingFunc originalState to
                          current h prop)
  ∧ dom (get_obj (tweenProps currentTime timestamp duration easingFunc originalState to
                             current h) current)
    = dom (get_obj h current)
  ∧ (forall times : list Z,
       dom (get_obj (foldl (fun h t => tweenProps t timestamp duration easingFunc
                                         originalState to current h) h times) current)
       = dom (get_obj h current)).
Proof.
  split; [|split].
  - intros prop. apply tweenProps_lookup.
  - apply tweenProps_dom.
  - intros times. revert h. induction times as [|t times IH]; intros h; [reflexivity|].
    simpl. rewrite IH. apply tweenProps_dom.
Qed.

(** ** [simpleCopy] *)

Section SimpleCopy.

Variables targetObj srcObj : loc.

Let body := fun (h : heap) (prop : string) =>
  set_prop h targetObj prop (to_number (get_prop h srcObj prop)).

Lemma simpleCopy_body_other (h : heap) (k k' : string) (l : loc) :
  k ≠ k' -> get_prop (body h k) l k' = get_prop h l k'.
Proof.
  intros Hk. unfold body. rewrite get_prop_set_prop.
  rewrite decide_False by (intros [_ ?]; done). reflexivity.
Qed.

Lemma simpleCopy_fold_other (ks : list string) (h : heap) (k : string) (l : loc) :
  k ∉ ks -> get_prop (foldl body h ks) l k = get_prop h l k.
Proof.
  revert h. induction ks as [|k0 ks IH]; intros h Hk; [reflexivity|].
  simpl. apply not_elem_of_cons in Hk as [Hne Hk].
  rewrite IH by exact Hk. apply simpleCopy_body_other. done.
Qed.

Lemma simpleCopy_fold_elsewhere (ks : list string) (h : heap) (l : loc) :
  l ≠ targetObj -> get_obj (foldl body h ks) l = get_obj h l.
Proof.
  intros Hl. revert h. induction ks as [|k0 ks IH]; intros h; [reflexivity|].
  simpl. rewrite IH. unfold body. apply get_obj_set_prop_ne. done.
Qed.

Lemma simpleCopy_fold_in (ks : list string) (h : heap) (k : string) :
  NoDup ks -> k ∈ ks ->
  get_prop (foldl body h ks) targetObj k = Some (to_number (get_prop h srcObj k)).
Proof.
  revert h. induction ks as [|k0 ks IH]; intros h Hnd Hk.
  - apply elem_of_nil in Hk. contradiction.
  - apply NoDup_cons in Hnd as [Hk0 Hnd]. simpl.
    destruct (decide (k = k0)) as [->|Hne].
    + rewrite simpleCopy_fold_other by exact Hk0.
      unfold body. rewrite get_prop_set_prop. rewrite decide_True by done. reflexivity.
    + apply elem_of_cons in Hk as [?|Hk]; [contradiction|].
      rewrite IH by assumption. rewrite simpleCopy_body_other by done. reflexivity.
Qed.

(** Every property of the source is written to the target; the other
    properties of the target stay. *)
Lemma simpleCopy_lookup (h : heap) (k : string) :
  get_prop (simpleCopy targetObj srcObj h) targetObj k
  = match get_prop h srcObj k with
    | Some v => Some v
    | None => get_prop h targetObj k
    end.
Proof.
  unfold simpleCopy. fold body.
  destruct (decide (k ∈ own_props h srcObj)) as [Hin|Hout].
  - rewrite simpleCopy_fold_in by (apply own_props_NoDup || exact Hin).
    apply own_props_elem in Hin as [v Hv]. rewrite Hv. reflexivity.
  - rewrite simpleCopy_fold_other by exact Hout.
    destruct (get_prop h srcObj k) eqn:Hs; [|reflexivity].
    exfalso. apply Hout. apply own_props_elem. rewrite Hs. eauto.
Qed.

Lemma simpleCopy_elsewhere (h : heap) (l : loc) :
  l ≠ targetObj -> get_obj (simpleCopy targetObj srcObj h) l = get_obj h l.
Proof. intros Hl. unfold simpleCopy. fold body. apply simpleCopy_fold_elsewhere. exact Hl. Qed.

End SimpleCopy.

(** Copying into a new, empty object yields the properties of the source. *)
Lemma simpleCopy_snapshot (targetObj srcObj : loc) (h : heap) :
  get_obj h targetObj = ∅ ->
  get_obj (simpleCopy targetObj srcObj h) targetObj = get_obj h srcObj.
Proof.
  intros Hempty. apply map_eq. intros k.
  change (get_prop (simpleCopy targetObj srcObj h) targetObj k = get_prop h srcObj k).
  rewrite simpleCopy_lookup. destruct (get_prop h srcObj k) eqn:Hs; [reflexivity|].
  unfold get_prop. rewrite Hempty. apply lookup_empty.
Qed.

(** ** Filters and hooks *)

Section Dispatch.

Variable call : nat -> list loc -> heap -> heap.

Lemma same_engine_refl (w : World) : same_engine w w.
Proof. repeat split. Qed.

Lemma same_engine_trans (w1 w2 w3 : World) :
  same_engine w1 w2 -> same_engine w2 w3 -> same_engine w1 w3.
Proof.
  unfold same_engine. intros (?&?&?&?&?&?) (?&?&?&?&?&?).
  repeat split; congruence.
Qed.

Lemma apply_fn_same_engine (ev : Event) (f : fn) (args : list loc) (w : World) :
  same_engine w (apply_fn call ev f args w).
Proof. repeat split. Qed.

Lemma applyFilter_fold (filterName : string) (args : list loc)
    (fs : list (string * gmap string fn)) (w : World) :
  let w' := foldl (fun w (g : string * gmap string fn) =>
                     match g.2 !! filterName with
                     | Some f => apply_fn call (EvFilter filterName g.1 f) f args w
                     | None => w
                     end) w fs in
  same_engine w w'
  ∧ log w' = (log w ++ filter_events filterName fs)%list
  ∧ store w' = run_filters call filterName args fs (store w).
Proof.
  revert w. induction fs as [|g fs IH]; intros w; simpl.
  - split; [apply same_engine_refl|]. split; [|reflexivity].
    unfold filter_events. simpl. rewrite app_nil_r. reflexivity.
  - unfold filter_events, run_filters in *. simpl.
    destruct (g.2 !! filterName) as [f|] eqn:Hg; simpl.
    + destruct (IH (apply_fn call (EvFilter filterName g.1 f) f args w)) as (He & Hl & Hs).
      split; [|split].
      * eapply same_engine_trans; [apply apply_fn_same_engine | exact He].
      * rewrite Hl. simpl. rewrite <- app_assoc. reflexivity.
      * rewrite Hs. reflexivity.
    + apply IH.
Qed.

Lemma applyFilter_spec (filterName : string) (args : list loc) (w : World) :
  same_engine w (applyFilter call filterName args w)
  ∧ log (applyFilter call filterName args w)
    = (log w ++ filter_events filterName (filter w))%list
  ∧ store (applyFilter call filterName args w)
    = run_filters call filterName args (filter w) (store w).
Proof. apply applyFilter_fold. Qed.

Lemma invokeHook_fold (hookName : string) (args : list loc) (fs : list fn) (w : World) :
  let w' := foldl (fun w f => apply_fn call (EvHook hookName f) f args w) w fs in
  same_engine w w' ∧ log w' = (log w ++ (EvHook hookName <$> fs))%list.
Proof.
  revert w. induction fs as [|f fs IH]; intros w; simpl.
  - split; [apply same_engine_refl|]. rewrite app_nil_r. reflexivity.
  - destruct (IH (apply_fn call (EvHook hookName f) f args w)) as (He & Hl).
    split.
    + eapply same_engine_trans; [apply apply_fn_same_engine | exact He].
    + rewrite Hl. simpl. rewrite <- app_assoc. reflexivity.
Qed.

Lemma invokeHook_spec (hookName : string) (hooks : gmap string (list fn))
    (args : list loc) (w : World) :
  same_engine w (invokeHook call hookName hooks args w)
  ∧ log (invokeHook call hookName hooks args w) = (log w ++ hook_events hookName hooks)%list.
Proof. apply invokeHook_fold. Qed.

End Dispatch.

(** ** The tick *)

Section Lifecycle.

Variable call : nat -> list loc -> heap -> heap.

(** A tick whose test holds: what it logs, schedules and records. *)
Lemma timeoutHandler_continue (now : Z) (w : World) (params : TweenParams.t) (current : loc) :
  _tweenParams (self w) = Some params ->
  State.current (_state (self w)) = Some current ->
  continues now params (_state (self w)) = true ->
  exists w',
    timeoutHandler call now w = Some w'
    ∧ log w' = (log w ++ filter_events "beforeTween" (filter w) ++ [EvTweenProps now]
                ++ filter_events "afterTween" (filter w)
                ++ hook_events "step" (_hook (self w))
                ++ [EvStep (TweenParams.step params)]
                ++ [EvSetTimeout (next_handle w)
                      (num_div (Fin 1000) (to_number (Fin <$> TweenParams.fps params)))])%list
    ∧ pending w' = (pending w ++ [(next_handle w,
                      num_div (Fin 1000) (to_number (Fin <$> TweenParams.fps params)))])%list
    ∧ self w' = set_state (State.set_loopId (Some (next_handle w)) (_state (self w))) (self w).
Proof.
  intros Hp Hc Hcont. unfold timeoutHandler. rewrite Hp, Hc, Hcont.
  set (args := [current; TweenParams.originalState params; TweenParams.to params]).
  set (wA := applyFilter call "beforeTween" args w).
  destruct (applyFilter_spec call "beforeTween" args w) as ((HsA&HpA&HnA&_&HfA&_) & HlA & _).
  fold wA in HsA, HpA, HnA, HfA, HlA.
  set (wB := emit (EvTweenProps now) (set_store _ wA)).
  assert (HB : self wB = self w ∧ pending wB = pending w ∧ next_handle wB = next_handle w
               ∧ filter wB = filter w
               ∧ log wB = (log w ++ filter_events "beforeTween" (filter w)
                           ++ [EvTweenProps now])%list).
  { subst wB. simpl. rewrite HlA, <- app_assoc. auto. }
  destruct HB as (HsB & HpB & HnB & HfB & HlB).
  set (wC := applyFilter call "afterTween" args wB).
  destruct (applyFilter_spec call "afterTween" args wB) as ((HsC&HpC&HnC&_&HfC&_) & HlC & _).
  fold wC in HsC, HpC, HnC, HfC, HlC.
  set (wD := match _hook (self wC) !! "step" with
             | Some _ => invokeHook call "step" (_hook (self wC)) [current] wC
             | None => wC
             end).
  assert (HD : self wD = self wC ∧ pending wD = pending wC ∧ next_handle wD = next_handle wC
               ∧ log wD = (log wC ++ hook_events "step" (_hook (self wC)))%list).
  { subst wD. destruct (_hook (self wC) !! "step") as [fs|] eqn:Hh.
    - destruct (invokeHook_spec call "step" (_hook (self wC)) [current] wC)
        as ((?&?&?&_) & Hl). auto.
    - unfold hook_events. rewrite Hh. simpl. rewrite app_nil_r. auto. }
  destruct HD as (HsD & HpD & HnD & HlD).
  eexists. split; [reflexivity|]. simpl.
  rewrite HlD, HlC, HlB, HsD, HsC, HsB, HpD, HpC, HpB, HnD, HnC, HnB, HfB.
  repeat split. rewrite <- !app_assoc. reflexivity.
Qed.

Lemma tween_when_animating (now : Z) (args : TweenArgs) (w : World) :
  State.isAnimating (_state (self w)) = true ->
  tween call now args w = (None, w).
Proof. intros H. unfold tween. rewrite H. reflexivity. Qed.

(** C4. While a tween is animating, [tween] returns no controller and
    changes nothing: no run is created, and [current], [to] and [duration] of
    the run in flight are as they were. *)
Theorem tween_rejected_while_animating (now : Z) (args : TweenArgs) (w : World) :
  State.isAnimating (_state (self w)) = true ->
  tween call now args w = (None, w).
Proof. apply tween_when_animating. Qed.

Lemma tweens_when_animating (calls : list (Z * TweenArgs)) (w : World) :
  State.isAnimating (_state (self w)) = true ->
  tweens call calls w = (const None <$> calls, w).
Proof.
  intros H. induction calls as [|[now args] calls IH]; [reflexivity|].
  simpl. rewrite tween_when_animating by exact H. rewrite IH. reflexivity.
Qed.

(** ** The controller *)

Lemma clearTimeout_pending (id : option nat) (w : World) (t : nat * num) :
  t ∈ pending (clearTimeout id w) <-> t ∈ pending w ∧ Some t.1 ≠ id.
Proof.
  unfold clearTimeout. simpl. rewrite !list_elem_of_In, filter_In.
  rewrite negb_true_iff, bool_decide_eq_false. reflexivity.
Qed.

(** What [stop (gotoEnd)] does to a run: the timer recorded in [loopId] is
    cleared; with [gotoEnd] the properties of [to] are copied into the object
    [current] (the same object as before), [isAnimating] becomes false and
    [callback] is called on it; without, the store, the flag and the log are
    as they were. *)
Lemma stop_effect (gotoEnd : bool) (w : World) (params : TweenParams.t) (current : loc) :
  _tweenParams (self w) = Some params ->
  State.current (_state (self w)) = Some current ->
  exists w',
    stop call gotoEnd w = Some w'
    ∧ (forall t, t ∈ pending w' <-> t ∈ pending w ∧ Some t.1 ≠ State.loopId (_state (self w)))
    ∧ get w' = Some current
    ∧ _tweenParams (self w') = Some params
    ∧ log w' = (log w ++ if gotoEnd then [EvCallback (TweenParams.callback params)] else [])%list
    ∧ if gotoEnd then
        State.isAnimating (_state (self w')) = false
        ∧ exists h,
            store w' = invoke call (TweenParams.callback params) [current] h
            ∧ (forall prop,
                 get_prop h current prop
                 = match get_prop (store w) (TweenParams.to params) prop with
                   | Some v => Some v
                   | None => get_prop (store w) current prop
                   end)
            ∧ (forall l, l ≠ current -> get_obj h l = get_obj (store w) l)
      else
        State.isAnimating (_state (self w')) = State.isAnimating (_state (self w))
        ∧ store w' = store w.
Proof.
  intros Hp Hc. unfold stop. rewrite Hp, Hc.
  destruct gotoEnd; eexists; (split; [reflexivity|]).
  - split; [intros t; apply clearTimeout_pending|].
    unfold get. simpl. rewrite Hp, Hc.
    repeat split; try reflexivity.
    eexists. split; [reflexivity|]. split.
    + intros prop. apply simpleCopy_lookup.
    + intros l Hl. apply simpleCopy_elsewhere. exact Hl.
  - split; [intros t; apply clearTimeout_pending|].
    unfold get. simpl. rewrite Hp, Hc, app_nil_r. repeat split; reflexivity.
Qed.

(** After [stop ()] on an animating tween [isAnimating] is still true, and
    calls of [tween] that follow at once return no controller; no tick is
    pending when the pending tick was the one the loop recorded in [loopId]. *)
Lemma stop_leaves_instance_animating (w w' : World) :
  State.isAnimating (_state (self w)) = true ->
  stop call false w = Some w' ->
  State.isAnimating (_state (self w')) = true
  ∧ (forall calls, tweens call calls w' = (const None <$> calls, w'))
  ∧ (forall id delay,
       pending w = [(id, delay)] -> State.loopId (_state (self w)) = Some id ->
       pending w' = []).
Proof.
  intros Ha Hstop. unfold stop in Hstop.
  destruct (_tweenParams (self w)) as [params|]; [|discriminate].
  destruct (State.current (_state (self w))) as [current|]; [|discriminate].
  injection Hstop as <-.
  assert (Hanim : State.isAnimating (_state (self (clearTimeout (State.loopId (_state (self w))) w)))
                  = true) by exact Ha.
  split; [exact Hanim|]. split.
  - intros calls. apply tweens_when_animating. exact Hanim.
  - intros id delay Hpend Hid. unfold clearTimeout. simpl. rewrite Hpend, Hid. simpl.
    rewrite bool_decide_eq_true_2 by reflexivity. reflexivity.
Qed.

(** ** Starting a tween *)

Lemma get_obj_alloc (w : World) (l : loc) :
  get_obj (store (alloc w).2) l = if decide (next_loc w = l) then ∅ else get_obj (store w) l.
Proof. simpl. apply get_obj_insert. Qed.

Lemma or_new_spec (o : option loc) (w : World) :
  same_engine_but_store w (or_new o w).2
  ∧ next_loc w <= next_loc (or_new o w).2
  ∧ (forall l, l < next_loc w -> get_obj (store (or_new o w).2) l = get_obj (store w) l)
  ∧ match o with
    | Some l => (or_new o w).1 = l ∧ (or_new o w).2 = w
    | None => (or_new o w).1 = next_loc w ∧ next_loc (or_new o w).2 = S (next_loc w)
              ∧ get_obj (store (or_new o w).2) (next_loc w) = ∅
    end.
Proof.
  destruct o as [l|]; simpl.
  - repeat split; auto.
  - repeat split; auto.
    + intros l Hl. rewrite get_obj_insert, decide_False by lia. reflexivity.
    + rewrite get_obj_insert, decide_True by reflexivity. reflexivity.
Qed.

(** The arguments normalized: [current] is the [from] of the caller when
    there is one, and a new empty object when there is none. *)
Lemma normalize_spec (this : Tweenable) (args : TweenArgs) (w : World) :
  exists step callback current to duration easing w',
    normalize this args w = (step, callback, current, to, duration, easing, w')
    ∧ same_engine_but_store w w'
    ∧ next_loc w <= next_loc w'
    ∧ (forall l, l < next_loc w -> get_obj (store w') l = get_obj (store w) l)
    ∧ match args_from args with
      | Some from => current = from
      | None => next_loc w <= current < next_loc w' ∧ get_obj (store w') current = ∅
      end.
Proof.
  destruct args as [from to duration callback easing | config]; unfold normalize.
  - destruct (or_new_spec from w) as (He & Hn & Hs & Hc).
    destruct (or_new from w) as [current w1] eqn:E. simpl in *.
    do 7 eexists. split; [reflexivity|]. repeat split; try apply He; auto.
    destruct from as [l|]; [apply Hc|]. destruct Hc as (-> & Hn1 & Hempty).
    repeat split; [lia | lia | exact Hempty].
  - destruct (or_new_spec (cfg_from config) w) as (He & Hn & Hs & Hc).
    destruct (or_new (cfg_from config) w) as [current w1] eqn:E. simpl in *.
    destruct (or_new_spec (cfg_to config) w1) as (He2 & Hn2 & Hs2 & Hc2).
    destruct (or_new (cfg_to config) w1) as [to w2] eqn:E2. simpl in *.
    do 7 eexists. split; [reflexivity|].
    destruct He as (?&?&?&?&?&?), He2 as (?&?&?&?&?&?).
    split; [repeat split; congruence|]. split; [lia|]. split.
    + intros l Hl. rewrite Hs2 by lia. apply Hs. exact Hl.
    + destruct (cfg_from config) as [l|]; [apply Hc|]. destruct Hc as (-> & Hn1 & Hempty).
      split; [lia|]. rewrite Hs2 by lia. exact Hempty.
Qed.

(** A call of [tween] on an instance that is not animating. *)
Lemma tween_started (now : Z) (args : TweenArgs) (w : World) :
  State.isAnimating (_state (self w)) = false ->
  exists params current h,
    (tween call now args w).1 = Some tweenController
    ∧ self (tween call now args w).2
      = set_state (State.mk (Some 0) (Some current) None true
                            (State.isPaused (_state (self w))))
                  (set_tweenParams (Some params) (self w))
    ∧ TweenParams.fps params = (p ← _tweenParams (self w); TweenParams.fps p)
    ∧ TweenParams.timestamp params = now
    ∧ pending (tween call now args w).2
      = (pending w ++ [(next_handle w, num_div (Fin 1000) (Fin (fps (self w))))])%list
    ∧ next_loc w < TweenParams.originalState params
    ∧ match args_from args with
      | Some from => current = from
      | None => next_loc w < current ∧ current ≠ TweenParams.originalState params
                ∧ get_obj h current = ∅
      end
    ∧ get_obj h (TweenParams.originalState params) = get_obj h current
    ∧ (forall l, l < next_loc w -> get_obj h l = get_obj (store w) l)
    ∧ store (tween call now args w).2
      = run_filters call "tweenCreated"
          [current; TweenParams.originalState params; TweenParams.to params] (filter w) h.
Proof.
  intros Ha. unfold tween. rewrite Ha.
  destruct (alloc w) as [l0 w1] eqn:E1.
  assert (Hw1 : w1 = (alloc w).2) by (rewrite E1; reflexivity).
  destruct (normalize_spec (self w) args w1)
    as (step & callback & current & to & duration & easing & wN & HN & He & Hn & Hs & Hc).
  rewrite HN. cbn [alloc].
  set (orig := next_loc wN).
  set (h := simpleCopy orig current (<[orig := ∅]> (store wN))).
  match goal with
  | |- context [applyFilter call "tweenCreated" ?args ?w0] =>
      destruct (applyFilter_spec call "tweenCreated" args w0)
        as ((HsF&HpF&HnF&_&HfF&_) & HlF & HstF);
      set (wF := applyFilter call "tweenCreated" args w0) in *
  end.
  simpl in HsF, HpF, HnF, HfF, HlF, HstF.
  destruct He as (Hes & Hep & Heh & Hef & Hefo & Hel).
  assert (Hn1 : next_loc w1 = S (next_loc w)) by (rewrite Hw1; reflexivity).
  assert (Hs1 : forall l, l < next_loc w -> get_obj (store w1) l = get_obj (store w) l).
  { intros l Hl. rewrite Hw1, get_obj_alloc, decide_False by lia. reflexivity. }
  assert (Hcur : get_obj h current = get_obj (<[orig := ∅]> (store wN)) current).
  { destruct (decide (current = orig)) as [->|Hne].
    - subst h. apply simpleCopy_snapshot.
      rewrite get_obj_insert, decide_True by reflexivity. reflexivity.
    - subst h. apply simpleCopy_elsewhere. exact Hne. }
  exists (TweenParams.mk step to duration callback easing now
            (default (default linear (formula wN !! "linear")) (formula wN !! easing))
            orig (p ← _tweenParams (self w); TweenParams.fps p)), current, h.
  simpl. rewrite ?HpF, ?HnF, ?HstF.
  assert (Hself : self w1 = self w) by (rewrite Hw1; reflexivity).
  assert (Hpend : pending w1 = pending w) by (rewrite Hw1; reflexivity).
  assert (Hhand : next_handle w1 = next_handle w) by (rewrite Hw1; reflexivity).
  assert (Hfil : filter w1 = filter w) by (rewrite Hw1; reflexivity).
  rewrite ?Hep, ?Heh, ?Hpend, ?Hhand.
  repeat split; try reflexivity.
  - subst orig. lia.
  - destruct (args_from args) as [from|]; [exact Hc|].
    destruct Hc as (Hrange & Hempty). subst orig.
    split; [lia|]. split; [lia|].
    rewrite Hcur, get_obj_insert, decide_False by lia. exact Hempty.
  - rewrite Hcur. subst h. apply simpleCopy_snapshot.
    rewrite get_obj_insert, decide_True by reflexivity. reflexivity.
  - intros l Hl. subst h. rewrite simpleCopy_elsewhere by (subst orig; lia).
    rewrite get_obj_insert, decide_False by (subst orig; lia).
    rewrite Hs by lia. apply Hs1. exact Hl.
  - rewrite Hef, Hfil. reflexivity.
Qed.

(** ** The frame rate of the reschedules *)

Lemma fps_unset_same (w w' : World) :
  _tweenParams (self w') = _tweenParams (self w) -> fps_unset w -> fps_unset w'.
Proof. unfold fps_unset. intros -> H. exact H. Qed.

Lemma stop_params (gotoEnd : bool) (w w' : World) :
  stop call gotoEnd w = Some w' -> _tweenParams (self w') = _tweenParams (self w).
Proof.
  unfold stop. destruct (_tweenParams (self w)) as [params|] eqn:Hp; [|discriminate].
  destruct (State.current (_state (self w))) as [current|]; [|discriminate].
  destruct gotoEnd; intros [= <-]; simpl; rewrite Hp; reflexivity.
Qed.

Lemma timeoutHandler_params (now : Z) (w w' : World) :
  timeoutHandler call now w = Some w' -> _tweenParams (self w') = _tweenParams (self w).
Proof.
  intros H.
  destruct (_tweenParams (self w)) as [params|] eqn:Hp;
    [|unfold timeoutHandler in H; rewrite Hp in H; discriminate].
  destruct (State.current (_state (self w))) as [current|] eqn:Hc;
    [|unfold timeoutHandler in H; rewrite Hp, Hc in H; discriminate].
  destruct (continues now params (_state (self w))) eqn:Hcont.
  - destruct (timeoutHandler_continue now w params current Hp Hc Hcont)
      as (w'' & Hw & _ & _ & Hs).
    rewrite Hw in H. injection H as <-. rewrite Hs. simpl. exact Hp.
  - unfold timeoutHandler in H. rewrite Hp, Hc, Hcont in H.
    rewrite (stop_params _ _ _ H). exact Hp.
Qed.

Lemma hookRemove_params (fuel : nat) (hookName : string) (hookFunc : option fn)
    (w w' : World) :
  hookRemove fuel hookName hookFunc w = Some w' ->
  _tweenParams (self w') = _tweenParams (self w).
Proof.
  unfold hookRemove. destruct (_hook (self w) !! hookName) as [a|]; [|intros [= <-]; reflexivity].
  destruct hookFunc as [f|]; [|intros [= <-]; reflexivity].
  destruct (hookRemove_loop fuel (Z.of_nat (length a)) a f); simpl; [|discriminate].
  intros [= <-]. reflexivity.
Qed.

(** No method of the engine ever assigns [fps] on the run parameters. *)
Lemma reachable_fps_unset (w : World) : reachable call w -> fps_unset w.
Proof.
  induction 1 as [h n fs F options | now args w Hr IH | now w w' Hr IH Ht
                  | gotoEnd w w' Hr IH Hs | now w Hr IH | w w' Hr IH Hres
                  | hookName hookFunc w Hr IH | fuel hookName hookFunc w w' Hr IH Hrem
                  | h w Hr IH | id w Hr IH].
  - intros params Hp. discriminate.
  - destruct (State.isAnimating (_state (self w))) eqn:Ha.
    + rewrite tween_when_animating by exact Ha. exact IH.
    + destruct (tween_started now args w Ha) as (params & current & h & _ & Hs & Hf & _).
      intros params' Hp'. rewrite Hs in Hp'. injection Hp' as <-.
      rewrite Hf. destruct (_tweenParams (self w)) as [p|] eqn:Hp; [|reflexivity].
      simpl. apply IH. exact Hp.
  - eapply fps_unset_same; [|exact IH]. eapply timeoutHandler_params. exact Ht.
  - eapply fps_unset_same; [|exact IH]. eapply stop_params. exact Hs.
  - exact IH.
  - unfold resume in Hres. destruct (_tweenParams (self w)) as [p|] eqn:Hp; [|discriminate].
    injection Hres as <-. intros params' Hp'. simpl in Hp'. injection Hp' as <-.
    specialize (IH p Hp).
    destruct (State.isPaused (_state (self w))); exact IH.
  - exact IH.
  - eapply fps_unset_same; [|exact IH]. eapply hookRemove_params. exact Hrem.
  - exact IH.
  - exact IH.
Qed.

(** C2. The reschedules do not wait [1000 / fps] milliseconds.  In every
    world the engine can reach, the reschedule at the end of a tick divides
    by [params.fps], which no code assigns, and the one of [resume] passes no
    frame rate at all: both delays are [1000 / undefined]; only the first
    schedule, in [tween], divides by the [fps] of the instance. *)
Theorem reschedule_delay_not_from_fps (now : Z) (w : World) :
  reachable call w ->
  (forall params current,
     _tweenParams (self w) = Some params ->
     State.current (_state (self w)) = Some current ->
     continues now params (_state (self w)) = true ->
     exists w', timeoutHandler call now w = Some w'
                ∧ pending w' = (pending w ++ [(next_handle w, NonFinite)])%list)
  ∧ (forall params,
       _tweenParams (self w) = Some params ->
       exists w', resume w = Some w'
                  ∧ pending w' = (pending w ++ [(next_handle w, NonFinite)])%list)
  ∧ (forall args,
       State.isAnimating (_state (self w)) = false ->
       pending (tween call now args w).2
       = (pending w ++ [(next_handle w, num_div (Fin 1000) (Fin (fps (self w))))])%list).
Proof.
  intros Hr. split; [|split].
  - intros params current Hp Hc Hcont.
    destruct (timeoutHandler_continue now w params current Hp Hc Hcont)
      as (w' & Hw & _ & Hpend & _).
    exists w'. split; [exact Hw|].
    rewrite Hpend, (reachable_fps_unset w Hr params Hp). reflexivity.
  - intros params Hp. unfold resume. rewrite Hp. eexists. split; reflexivity.
  - intros args Ha.
    destruct (tween_started now args w Ha) as (params & current & h & _ & _ & _ & _ & Hpend & _).
    exact Hpend.
Qed.

(** ** Pause and resume *)

(** [resume] after [pause]: the logical start of the run becomes the time of
    the pause, whenever the run is resumed. *)
Lemma resume_after_pause (at_time : Z) (w : World) (params : TweenParams.t) :
  _tweenParams (self w) = Some params ->
  exists w',
    resume (pause at_time w) = Some w'
    ∧ _tweenParams (self w') = Some (TweenParams.set_timestamp at_time params).
Proof.
  intros Hp. unfold resume, pause. simpl. rewrite Hp. simpl.
  eexists. split; [reflexivity|]. simpl. do 2 f_equal. lia.
Qed.

(** ** The object a tween animates *)

(** C7, as the code has it.  A call of [tween] that is accepted animates the
    [from] object of the caller itself: [current] is that object, and the
    interpolation step writes into it and into no other object.  What is
    captured at the start is [originalState], a new object with the properties
    [from] has then, which the interpolation step never writes.  Without
    [from], [current] is a new empty object. *)
Theorem tween_animates_from_itself (now : Z) (args : TweenArgs) (w : World) :
  State.isAnimating (_state (self w)) = false ->
  (forall from, args_from args = Some from -> from < next_loc w) ->
  exists params current h,
    (tween call now args w).1 = Some tweenController
    ∧ get (tween call now args w).2 = Some current
    ∧ _tweenParams (self (tween call now args w).2) = Some params
    ∧ match args_from args with
      | Some from => current = from
      | None => next_loc w < current ∧ get_obj h current = ∅
      end
    ∧ next_loc w < TweenParams.originalState params
    ∧ TweenParams.originalState params ≠ current
    ∧ get_obj h (TweenParams.originalState params) = get_obj h current
    ∧ (forall l, l < next_loc w -> get_obj h l = get_obj (store w) l)
    ∧ store (tween call now args w).2
      = run_filters call "tweenCreated"
          [current; TweenParams.originalState params; TweenParams.to params] (filter w) h
    ∧ (forall currentTime h' l,
         l ≠ current ->
         get_obj (tweenProps currentTime (TweenParams.timestamp params)
                    (TweenParams.duration params) (TweenParams.easingFunc params)
                    (TweenParams.originalState params) (TweenParams.to params) current h') l
         = get_obj h' l).
Proof.
  intros Ha Hfrom.
  destruct (tween_started now args w Ha)
    as (params & current & h & Hr & Hs & _ & _ & _ & Ho & Hc & Hsnap & Hold & Hst).
  exists params, current, h. unfold get. rewrite Hs. simpl.
  repeat split; try assumption.
  - destruct (args_from args) as [from|]; [exact Hc|]. destruct Hc as (? & _ & ?). auto.
  - destruct (args_from args) as [from|] eqn:Hargs.
    + subst current. specialize (Hfrom from eq_refl). lia.
    + destruct Hc as (_ & Hne & _). auto.
  - intros currentTime h' l Hl. apply tweenProps_elsewhere. exact Hl.
Qed.

End Lifecycle.

(** * The sample run *)

Lemma tween_rejected_while_animating_witness :
  tween no_calls 5 sample_args sample_started = (None, sample_started).
Proof.
  apply (tween_rejected_while_animating no_calls 5 sample_args sample_started).
  vm_compute. reflexivity.
Defined.

Lemma stop_leaves_instance_animating_witness :
  sample_ticked = Some sample_ticked_world
  ∧ stop no_calls false sample_ticked_world = Some sample_stopped_world
  ∧ State.isAnimating (_state (self sample_stopped_world)) = true
  ∧ tweens no_calls [(300%Z, sample_args); (400%Z, hooked_args)] sample_stopped_world
    = ([None; None], sample_stopped_world)
  ∧ pending sample_stopped_world = [].
Proof.
  destruct (stop_leaves_instance_animating no_calls sample_ticked_world sample_stopped_world)
    as (Ha & Ht & Hp); [by_evaluation | by_evaluation |].
  split; [by_evaluation|]. split; [by_evaluation|].
  split; [exact Ha|]. split.
  - apply (Ht [(300%Z, sample_args); (400%Z, hooked_args)]).
  - apply (Hp 2 NonFinite); by_evaluation.
Defined.

Lemma reschedule_delay_not_from_fps_witness :
  (exists w', timeoutHandler no_calls 100 sample_started = Some w'
              ∧ pending w' = [(1, Fin (1000 # 30)); (2, NonFinite)])
  ∧ (exists w', resume sample_started = Some w'
                ∧ pending w' = [(1, Fin (1000 # 30)); (2, NonFinite)])
  ∧ pending sample_started = [(1, Fin (1000 # 30))].
Proof.
  destruct (reschedule_delay_not_from_fps no_calls 100 sample_started) as (Htick & Hres & _).
  { apply reach_tween, reach_init. }
  destruct (reschedule_delay_not_from_fps no_calls 0 sample_world) as (_ & _ & Htween).
  { apply reach_init. }
  split; [|split].
  - apply (Htick sample_params sample_from); vm_compute; reflexivity.
  - apply (Hres sample_params). vm_compute. reflexivity.
  - apply (Htween sample_args). vm_compute. reflexivity.
Defined.

Lemma tween_animates_from_itself_witness :
  exists params,
    get sample_started = Some sample_from
    ∧ _tweenParams (self sample_started) = Some params
    ∧ TweenParams.originalState params ≠ sample_from.
Proof.
  destruct (tween_animates_from_itself no_calls 0 sample_args sample_world)
    as (params & current & h & _ & Hget & Hp & Hc & _ & Hne & _).
  - vm_compute. reflexivity.
  - intros from [= <-]. vm_compute. lia.
  - simpl in Hc. subst current. exists params. repeat split; assumption.
Defined.

(** C7 as stated fails: [current] is [from], and the first tick has changed
    the caller's [from] object from [{x: 0}] to [{x: 10}]. *)
Lemma tick_changes_from_object :
  exists w,
    sample_ticked = Some w
    ∧ get w = Some sample_from
    ∧ get_prop (store sample_world) sample_from "x" = Some (Fin 0)
    ∧ get_prop (store w) sample_from "x" ≠ get_prop (store sample_world) sample_from "x".
Proof.
  eexists. split; [vm_compute; reflexivity|].
  split; [vm_compute; reflexivity|].
  split; [vm_compute; reflexivity|].
  vm_compute. discriminate.
Qed.

(** C1.  The sample run, paused at 200 ms and resumed 500 ms later: [resume]
    moves the start of the run to the time of the pause, so the 500 ms spent
    paused count as animation and the 200 ms animated before the pause are
    lost.  The tick at 700 ms puts [x] at 50 (20 after 200 ms of animation),
    the one at 1199 ms at 99.9, and the one at 1200 ms ends the run at 100:
    300 ms before the 1500 ms of a pause that is transparent. *)
Theorem pause_resume_restarts_at_pause_time :
  has_value sample_ticked sample_from "x" 10
  ∧ has_value sample_resumed sample_from "x" 50
  ∧ has_value sample_late sample_from "x" 99.9
  ∧ animating sample_late = Some true
  ∧ has_value sample_done sample_from "x" 100
  ∧ animating sample_done = Some false
  ∧ timers sample_done = Some [].
Proof. split_all; by_evaluation. Qed.

(** C5.  [stop ()] called before the first tick cancels nothing: [tween]
    has set [loopId] to 0 and has not recorded the timer it scheduled, so the
    tick stays pending; when the host runs it the tween goes on, [x] moves
    from 0 to 10 and the next tick is scheduled. *)
Theorem stop_before_first_tick_cancels_nothing :
  timers (Some sample_started) = Some [(1, Fin (1000 # 30))]
  ∧ timers sample_stopped_early = Some [(1, Fin (1000 # 30))]
  ∧ has_value sample_stopped_early sample_from "x" 0
  ∧ has_value sample_early_tick sample_from "x" 10
  ∧ animating sample_early_tick = Some true
  ∧ timers sample_early_tick = Some [(2, NonFinite)].
Proof. split_all; by_evaluation. Qed.

(** * More of the engine *)

(** ** [simpleCopy] and [each] *)

Lemma simpleCopy_source (targetObj srcObj : loc) (h : heap) :
  get_obj (simpleCopy targetObj srcObj h) srcObj = get_obj h srcObj.
Proof.
  destruct (decide (srcObj = targetObj)) as [->|Hne].
  - apply get_obj_ext. intros k. rewrite simpleCopy_lookup.
    destruct (get_prop h targetObj k); reflexivity.
  - apply simpleCopy_elsewhere. exact Hne.
Qed.

(** X1. [simpleCopy (targetObj, srcObj)] gives the target every property of
    the source, with the source's value, and keeps the properties only the
    target has; the source and every other object are as they were, also when
    the target and the source are one object. *)
Theorem simpleCopy_copies (targetObj srcObj : loc) (h : heap) :
  (forall prop,
     get_prop (simpleCopy targetObj srcObj h) targetObj prop
     = match get_prop h srcObj prop with
       | Some v => Some v
       | None => get_prop h targetObj prop
       end)
  ∧ get_obj (simpleCopy targetObj srcObj h) srcObj = get_obj h srcObj
  ∧ (forall l, l ≠ targetObj -> get_obj (simpleCopy targetObj srcObj h) l = get_obj h l).
Proof.
  split; [|split].
  - intros prop. apply simpleCopy_lookup.
  - apply simpleCopy_source.
  - intros l Hl. apply simpleCopy_elsewhere. exact Hl.
Qed.

Lemma simpleCopy_copies_witness :
  get_prop (simpleCopy partial_from partial_to partial_store) partial_from "y" = Some (Fin 5)
  ∧ get_prop (simpleCopy partial_from partial_to partial_store) partial_from "z" = Some (Fin 7)
  ∧ get_obj (simpleCopy partial_from partial_to partial_store) partial_to
    = get_obj partial_store partial_to.
Proof.
  destruct (simpleCopy_copies partial_from partial_to partial_store) as (Hl & Hs & He).
  split; [rewrite Hl; by_evaluation|]. split; [rewrite Hl; by_evaluation|].
  apply He. discriminate.
Defined.

(** X2. Copying the same source into the same target a second time changes
    no object. *)
Theorem simpleCopy_idempotent (targetObj srcObj : loc) (h : heap) (l : loc) :
  get_obj (simpleCopy targetObj srcObj (simpleCopy targetObj srcObj h)) l
  = get_obj (simpleCopy targetObj srcObj h) l.
Proof.
  destruct (decide (l = targetObj)) as [->|Hne].
  - apply get_obj_ext. intros k. rewrite simpleCopy_lookup.
    change (get_prop (simpleCopy targetObj srcObj h) srcObj k)
      with (get_obj (simpleCopy targetObj srcObj h) srcObj !! k).
    rewrite simpleCopy_source.
    change (get_obj h srcObj !! k) with (get_prop h srcObj k).
    destruct (get_prop h srcObj k) as [v|] eqn:Hs; [|reflexivity].
    rewrite simpleCopy_lookup, Hs. reflexivity.
  - apply simpleCopy_elsewhere. exact Hne.
Qed.

(** ** Linear tweens on objects *)

(** X3. Under exact arithmetic (numbers as rationals, no rounding): one
    interpolation step with the [linear] formula, on a property
    that [current], [to] and [originalState] hold as finite numbers [v], [t]
    and [b], with a duration [d] that is not zero: the property becomes
    [(t - b) * elapsed / d + b], which is [b] when no time has elapsed and [t]
    when the whole duration has. *)
Theorem tweenProps_linear (currentTime timestamp : Z) (duration : Q)
    (originalState to current : loc) (h : heap) (prop : string) (v : num) (t b : Q) :
  get_prop h current prop = Some v ->
  get_prop h to prop = Some (Fin t) ->
  get_prop h originalState prop = Some (Fin b) ->
  ¬ (duration == 0)%Q ->
  exists x,
    get_prop (tweenProps currentTime timestamp duration linear originalState to current h)
             current prop = Some (Fin x)
    ∧ (x == (t - b) * inject_Z (currentTime - timestamp) / duration + b)%Q
    ∧ (currentTime = timestamp -> (x == b)%Q)
    ∧ ((inject_Z (currentTime - timestamp) == duration)%Q -> (x == t)%Q).
Proof.
  intros Hc Ht Hb Hd.
  assert (Hz : Qeq_bool duration 0 = false).
  { destruct (Qeq_bool duration 0) eqn:E; [|reflexivity].
    apply Qeq_bool_iff in E. contradiction. }
  exists ((t - b) * inject_Z (currentTime - timestamp) / duration + b)%Q.
  split; [|split; [reflexivity|split]].
  - rewrite tweenProps_lookup. unfold interpolated_value. rewrite Hc, Ht, Hb.
    unfold linear. simpl. rewrite Hz. reflexivity.
  - intros ->. rewrite Z.sub_diag. change (inject_Z 0) with 0%Q. field. exact Hd.
  - intros He. rewrite He. field. exact Hd.
Qed.

Lemma tweenProps_linear_witness :
  exists x,
    get_prop (tweenProps 250 0 1000 linear 3 partial_to partial_from
                (<[3 := {[ "x" := Fin 0 ]}]> partial_store)) partial_from "x" = Some (Fin x)
    ∧ (x == (10 - 0) * inject_Z (250 - 0) / 1000 + 0)%Q.
Proof.
  destruct (tweenProps_linear 250 0 1000 3 partial_to partial_from
              (<[3 := {[ "x" := Fin 0 ]}]> partial_store) "x" (Fin 0) 10 0)
    as (x & Hx & He & _); [by_evaluation | by_evaluation | by_evaluation | discriminate |].
  exists x. split; assumption.
Defined.

(** X4. A property that [current] and [to] have and [originalState] has
    not (one added to the object after the tween started) becomes not-a-number
    at the next linear interpolation step. *)
Theorem tweenProps_linear_missing_original (currentTime timestamp : Z) (duration : Q)
    (originalState to current : loc) (h : heap) (prop : string) (v t : num) :
  get_prop h current prop = Some v ->
  get_prop h to prop = Some t ->
  get_prop h originalState prop = None ->
  get_prop (tweenProps currentTime timestamp duration linear originalState to current h)
           current prop = Some NonFinite.
Proof.
  intros Hc Ht Hb. rewrite tweenProps_lookup. unfold interpolated_value.
  rewrite Hc, Ht, Hb. unfold linear. destruct t; reflexivity.
Qed.

Lemma tweenProps_linear_missing_original_witness :
  get_prop (tweenProps 250 0 1000 linear 3 partial_to partial_from partial_store)
           partial_from "x" = Some NonFinite.
Proof.
  apply (tweenProps_linear_missing_original 250 0 1000 3 partial_to partial_from
           partial_store "x" (Fin 0) (Fin 10)); by_evaluation.
Defined.

(** ** The instance *)

Lemma or_num_nonzero (a : option Q) (b : Q) : ¬ (b == 0)%Q -> ¬ (or_num a b == 0)%Q.
Proof.
  intros Hb. unfold or_num. destruct a as [q|]; [|exact Hb].
  destruct (Qeq_bool q 0) eqn:E; [exact Hb|].
  intros Hq. apply Qeq_bool_iff in Hq. congruence.
Qed.

Lemma or_str_nonempty (a : option string) (b : string) : b ≠ "" -> or_str a b ≠ "".
Proof.
  intros Hb. unfold or_str. destruct a as [[|c s]|]; try exact Hb. discriminate.
Qed.

Lemma init_falsy_free (options : Options) :
  ¬ (fps (init options) == 0)%Q
  ∧ ¬ (duration (init options) == 0)%Q
  ∧ easing (init options) ≠ "".
Proof.
  unfold init. simpl. split_all.
  - apply or_num_nonzero. discriminate.
  - apply or_num_nonzero. discriminate.
  - apply or_str_nonempty. discriminate.
Qed.


Section More.

Variable call : nat -> list loc -> heap -> heap.

(** The rest of what an accepted call of [tween] leaves: the handle counter,
    the log, and the run parameters in terms of the normalized arguments. *)
Lemma tween_started_params (now : Z) (args : TweenArgs) (w : World) :
  State.isAnimating (_state (self w)) = false ->
  next_handle (tween call now args w).2 = S (next_handle w)
  ∧ log (tween call now args w).2
    = (log w ++ filter_events "tweenCreated" (filter w)
       ++ [EvSetTimeout (next_handle w) (num_div (Fin 1000) (Fin (fps (self w))))])%list
  ∧ filter (tween call now args w).2 = filter w
  ∧ formula (tween call now args w).2 = formula w
  ∧ exists step callback current to duration easing wN,
      normalize (self w) args (alloc w).2 = (step, callback, current, to, duration, easing, wN)
      ∧ _tweenParams (self (tween call now args w).2)
        = Some (TweenParams.mk step to duration callback easing now
                  (default (default linear (formula w !! "linear")) (formula w !! easing))
                  (next_loc wN) (p ← _tweenParams (self w); TweenParams.fps p)).
Proof.
  intros Ha. unfold tween. rewrite Ha.
  destruct (alloc w) as [l0 w1] eqn:E1.
  assert (Hw1 : w1 = (alloc w).2) by (rewrite E1; reflexivity).
  destruct (normalize_spec (self w) args w1)
    as (step & callback & current & to & duration & easing & wN & HN & He & _).
  rewrite HN. cbn [alloc].
  match goal with
  | |- context [applyFilter call "tweenCreated" ?args ?w0] =>
      destruct (applyFilter_spec call "tweenCreated" args w0)
        as ((HsF&HpF&HnF&_&HfF&HfoF) & HlF & _);
      set (wF := applyFilter call "tweenCreated" args w0) in *
  end.
  simpl in HsF, HpF, HnF, HfF, HfoF, HlF.
  destruct He as (Hes & Hep & Heh & Hef & Hefo & Hel).
  assert (Hhand : next_handle w1 = next_handle w) by (rewrite Hw1; reflexivity).
  assert (Hfil : filter w1 = filter w) by (rewrite Hw1; reflexivity).
  assert (Hfor : formula w1 = formula w) by (rewrite Hw1; reflexivity).
  assert (Hlog : log w1 = log w) by (rewrite Hw1; reflexivity).
  simpl. rewrite HnF, HlF, HfF, HfoF, Heh, Hel, Hef, Hefo, Hhand, Hfil, Hfor, Hlog.
  split_all; try reflexivity.
  - rewrite <- app_assoc. reflexivity.
  - exists step, callback, current, to, duration, easing, wN.
    split; [congruence|]. reflexivity.
Qed.

(** ** The store and the handles through a tick *)

Lemma invokeHook_store (hookName : string) (args : list loc) (fs : list fn) (w : World) :
  store (foldl (fun w f => apply_fn call (EvHook hookName f) f args w) w fs)
  = run_hooks call args fs (store w).
Proof.
  revert w. induction fs as [|f fs IH]; intros w; [reflexivity|].
  simpl. rewrite IH. reflexivity.
Qed.

(** A tick whose test holds: the store it leaves and the handle it takes. *)
Lemma timeoutHandler_continue_store (now : Z) (w : World) (params : TweenParams.t)
    (current : loc) :
  _tweenParams (self w) = Some params ->
  State.current (_state (self w)) = Some current ->
  continues now params (_state (self w)) = true ->
  exists w',
    timeoutHandler call now w = Some w'
    ∧ next_handle w' = S (next_handle w)
    ∧ store w'
      = invoke call (TweenParams.step params) [current]
          (run_hooks call [current] (default [] (_hook (self w) !! "step"))
             (run_filters call "afterTween"
                [current; TweenParams.originalState params; TweenParams.to params] (filter w)
                (tweenProps now (TweenParams.timestamp params) (TweenParams.duration params)
                   (TweenParams.easingFunc params) (TweenParams.originalState params)
                   (TweenParams.to params) current
                   (run_filters call "beforeTween"
                      [current; TweenParams.originalState params; TweenParams.to params]
                      (filter w) (store w))))).
Proof.
  intros Hp Hc Hcont. unfold timeoutHandler. rewrite Hp, Hc, Hcont.
  set (args := [current; TweenParams.originalState params; TweenParams.to params]).
  set (wA := applyFilter call "beforeTween" args w).
  destruct (applyFilter_spec call "beforeTween" args w) as ((HsA&_&HnA&_&HfA&_) & _ & HstA).
  fold wA in HsA, HnA, HfA, HstA.
  set (wB := emit (EvTweenProps now) (set_store _ wA)).
  assert (HB : self wB = self w ∧ next_handle wB = next_handle w ∧ filter wB = filter w
               ∧ store wB = tweenProps now (TweenParams.timestamp params)
                              (TweenParams.duration params) (TweenParams.easingFunc params)
                              (TweenParams.originalState params) (TweenParams.to params)
                              current (store wA)).
  { subst wB. simpl. auto. }
  destruct HB as (HsB & HnB & HfB & HstB).
  set (wC := applyFilter call "afterTween" args wB).
  destruct (applyFilter_spec call "afterTween" args wB) as ((HsC&_&HnC&_&HfC&_) & _ & HstC).
  fold wC in HsC, HnC, HfC, HstC.
  set (wD := match _hook (self wC) !! "step" with
             | Some _ => invokeHook call "step" (_hook (self wC)) [current] wC
             | None => wC
             end).
  assert (HD : next_handle wD = next_handle wC
               ∧ store wD = run_hooks call [current]
                              (default [] (_hook (self wC) !! "step")) (store wC)).
  { subst wD. destruct (_hook (self wC) !! "step") as [fs|] eqn:Hh.
    - destruct (invokeHook_spec call "step" (_hook (self wC)) [current] wC)
        as ((_&_&Hn&_) & _).
      split; [exact Hn|]. unfold invokeHook. rewrite Hh. apply invokeHook_store.
    - split; reflexivity. }
  destruct HD as (HnD & HstD).
  eexists. split; [reflexivity|]. simpl.
  rewrite ?HnD, ?HnC, ?HnB, ?HnA, ?HstD, ?HstC, ?HstB, ?HstA, ?HsC, ?HsB, ?HsA, ?HfB, ?HfA.
  split; reflexivity.
Qed.

(** C8. On a tick whose test holds the effects are, in this order and each
    once: the [beforeTween] filters, the interpolation step, the [afterTween]
    filters, the callbacks of the [step] hook list (none when there is no
    list), the [step] callback of the run, the reschedule.  The log records
    them in that order, the store is the one they leave when applied in that
    order, and the reschedule sets one timer, whose handle goes to [loopId];
    nothing else of the instance changes. *)
Theorem timeoutHandler_order (now : Z) (w : World) (params : TweenParams.t) (current : loc) :
  _tweenParams (self w) = Some params ->
  State.current (_state (self w)) = Some current ->
  continues now params (_state (self w)) = true ->
  exists w',
    timeoutHandler call now w = Some w'
    ∧ log w' = (log w ++ filter_events "beforeTween" (filter w)
                ++ [EvTweenProps now]
                ++ filter_events "afterTween" (filter w)
                ++ hook_events "step" (_hook (self w))
                ++ [EvStep (TweenParams.step params)]
                ++ [EvSetTimeout (next_handle w)
                      (num_div (Fin 1000) (to_number (Fin <$> TweenParams.fps params)))])%list
    ∧ store w'
      = invoke call (TweenParams.step params) [current]
          (run_hooks call [current] (default [] (_hook (self w) !! "step"))
             (run_filters call "afterTween"
                [current; TweenParams.originalState params; TweenParams.to params] (filter w)
                (tweenProps now (TweenParams.timestamp params) (TweenParams.duration params)
                   (TweenParams.easingFunc params) (TweenParams.originalState params)
                   (TweenParams.to params) current
                   (run_filters call "beforeTween"
                      [current; TweenParams.originalState params; TweenParams.to params]
                      (filter w) (store w)))))
    ∧ pending w' = (pending w ++ [(next_handle w,
                      num_div (Fin 1000) (to_number (Fin <$> TweenParams.fps params)))])%list
    ∧ next_handle w' = S (next_handle w)
    ∧ self w' = set_state (State.set_loopId (Some (next_handle w)) (_state (self w))) (self w).
Proof.
  intros Hp Hc Hcont.
  destruct (timeoutHandler_continue call now w params current Hp Hc Hcont)
    as (w1 & Hw1 & Hl & Hpend & Hs).
  destruct (timeoutHandler_continue_store now w params current Hp Hc Hcont)
    as (w2 & Hw2 & Hn & Hst).
  rewrite Hw1 in Hw2. injection Hw2 as <-.
  exists w1. split_all; assumption.
Qed.

(** ** What the controller and the tick leave alone *)

Lemma stop_frame (gotoEnd : bool) (w w' : World) :
  stop call gotoEnd w = Some w' ->
  next_handle w' = next_handle w
  ∧ fps (self w') = fps (self w)
  ∧ duration (self w') = duration (self w)
  ∧ _hook (self w') = _hook (self w)
  ∧ _tweenParams (self w') = _tweenParams (self w)
  ∧ State.loopId (_state (self w')) = State.loopId (_state (self w))
  ∧ State.current (_state (self w')) = State.current (_state (self w))
  ∧ State.isPaused (_state (self w')) = State.isPaused (_state (self w))
  ∧ State.pausedAtTime (_state (self w')) = State.pausedAtTime (_state (self w))
  ∧ (forall t, t ∈ pending w' <-> t ∈ pending w ∧ Some t.1 ≠ State.loopId (_state (self w))).
Proof.
  unfold stop. destruct (_tweenParams (self w)) as [params|] eqn:Hp; [|discriminate].
  destruct (State.current (_state (self w))) as [current|] eqn:Hc; [|discriminate].
  destruct gotoEnd; intros [= <-]; simpl; rewrite ?Hp, ?Hc;
    split_all; try reflexivity; apply clearTimeout_pending.
Qed.

Lemma timeoutHandler_frame (now : Z) (w w' : World) :
  timeoutHandler call now w = Some w' ->
  fps (self w') = fps (self w)
  ∧ duration (self w') = duration (self w)
  ∧ _hook (self w') = _hook (self w)
  ∧ _tweenParams (self w') = _tweenParams (self w)
  ∧ State.current (_state (self w')) = State.current (_state (self w))
  ∧ State.isPaused (_state (self w')) = State.isPaused (_state (self w))
  ∧ State.pausedAtTime (_state (self w')) = State.pausedAtTime (_state (self w)).
Proof.
  intros H.
  destruct (_tweenParams (self w)) as [params|] eqn:Hp;
    [|unfold timeoutHandler in H; rewrite Hp in H; discriminate].
  destruct (State.current (_state (self w))) as [current|] eqn:Hc;
    [|unfold timeoutHandler in H; rewrite Hp, Hc in H; discriminate].
  destruct (continues now params (_state (self w))) eqn:Hcont.
  - destruct (timeoutHandler_continue call now w params current Hp Hc Hcont)
      as (w'' & Hw & _ & _ & Hs).
    rewrite Hw in H. injection H as <-. rewrite Hs. simpl.
    rewrite Hp, Hc. split_all; reflexivity.
  - unfold timeoutHandler in H. rewrite Hp, Hc, Hcont in H.
    destruct (stop_frame true w w' H) as (_&?&?&?&Hp'&_&Hc'&?&?&_).
    rewrite Hp', Hc', Hp, Hc. split_all; assumption || reflexivity.
Qed.

Lemma normalize_duration (this : Tweenable) (args : TweenArgs) (w wN : World)
    (step callback : fn) (current to : loc) (d : Q) (e : string) :
  normalize this args w = (step, callback, current, to, d, e, wN) ->
  ¬ (duration this == 0)%Q -> ¬ (d == 0)%Q.
Proof.
  intros HN Hd. unfold normalize in HN.
  destruct args as [from to0 duration0 callback0 easing0 | config].
  - destruct (or_new from w) as [c w1]. injection HN as <- <- <- <- <- <- <-.
    apply or_num_nonzero. exact Hd.
  - destruct (or_new (cfg_from config) w) as [c w1].
    destruct (or_new (cfg_to config) w1) as [t w2].
    injection HN as <- <- <- <- <- <- <-.
    apply or_num_nonzero. exact Hd.
Qed.

(** ** Two invariants of the worlds the engine reaches *)

Lemma tween_invariants (now : Z) (args : TweenArgs) (w : World) :
  handles_fresh w ∧ rates_nonzero w ->
  handles_fresh (tween call now args w).2 ∧ rates_nonzero (tween call now args w).2.
Proof.
  intros ((Hn & Hpend & Hid) & (Hf & Hd & Hp)).
  destruct (State.isAnimating (_state (self w))) eqn:Ha.
  { rewrite tween_when_animating by exact Ha.
    exact (conj (conj Hn (conj Hpend Hid)) (conj Hf (conj Hd Hp))). }
  destruct (tween_started call now args w Ha)
    as (params & current & h & _ & Hs & _ & _ & Hpend' & _).
  destruct (tween_started_params now args w Ha)
    as (Hn' & _ & _ & _ & step & callback & current' & to & d & e & wN & HN & Hp').
  rewrite Hs in Hp'. simpl in Hp'. injection Hp' as Hparams.
  split; [split; [|split]|split; [|split]].
  - rewrite Hn'. lia.
  - intros t Ht. rewrite Hpend', Hn' in *. apply elem_of_app in Ht as [Ht| Ht].
    + specialize (Hpend t Ht). lia.
    + apply list_elem_of_singleton in Ht. subst t. simpl. lia.
  - intros id. rewrite Hs, Hn'. simpl. intros [= <-]. lia.
  - rewrite Hs. exact Hf.
  - rewrite Hs. exact Hd.
  - intros params' Hq. rewrite Hs in Hq. simpl in Hq. injection Hq as <-.
    rewrite Hparams. simpl. eapply normalize_duration; [exact HN | exact Hd].
Qed.

Lemma timeoutHandler_invariants (now : Z) (w w' : World) :
  timeoutHandler call now w = Some w' ->
  handles_fresh w ∧ rates_nonzero w -> handles_fresh w' ∧ rates_nonzero w'.
Proof.
  intros H ((Hn & Hpend & Hid) & (Hf & Hd & Hp)).
  destruct (timeoutHandler_frame now w w' H) as (Hf' & Hd' & _ & Hp' & _).
  split; [|unfold rates_nonzero; rewrite Hf', Hd', Hp'; auto].
  destruct (_tweenParams (self w)) as [params|] eqn:Hpar;
    [|unfold timeoutHandler in H; rewrite Hpar in H; discriminate].
  destruct (State.current (_state (self w))) as [current|] eqn:Hc;
    [|unfold timeoutHandler in H; rewrite Hpar, Hc in H; discriminate].
  destruct (continues now params (_state (self w))) eqn:Hcont.
  - destruct (timeoutHandler_continue call now w params current Hpar Hc Hcont)
      as (w1 & Hw1 & _ & Hpend1 & Hs1).
    destruct (timeoutHandler_continue_store now w params current Hpar Hc Hcont)
      as (w2 & Hw2 & Hn2 & _).
    rewrite Hw1 in H. injection H as <-. rewrite Hw1 in Hw2. injection Hw2 as <-.
    split; [lia|]. split.
    + intros t Ht. rewrite Hpend1, Hn2 in *. apply elem_of_app in Ht as [Ht| Ht].
      * specialize (Hpend t Ht). lia.
      * apply list_elem_of_singleton in Ht. subst t. simpl. lia.
    + intros id. rewrite Hs1, Hn2. simpl. intros [= <-]. lia.
  - unfold timeoutHandler in H. rewrite Hpar, Hc, Hcont in H.
    destruct (stop_frame true w w' H) as (Hn'&_&_&_&_&Hl'&_&_&_&Hpend').
    split; [lia|]. split.
    + intros t Ht. apply Hpend' in Ht as [Ht _]. rewrite Hn'. auto.
    + intros id. rewrite Hl', Hn'. auto.
Qed.

Lemma stop_invariants (gotoEnd : bool) (w w' : World) :
  stop call gotoEnd w = Some w' ->
  handles_fresh w ∧ rates_nonzero w -> handles_fresh w' ∧ rates_nonzero w'.
Proof.
  intros H ((Hn & Hpend & Hid) & (Hf & Hd & Hp)).
  destruct (stop_frame gotoEnd w w' H) as (Hn'&Hf'&Hd'&_&Hp'&Hl'&_&_&_&Hpend').
  split; [|unfold rates_nonzero; rewrite Hf', Hd', Hp'; auto].
  split; [lia|]. split.
  - intros t Ht. apply Hpend' in Ht as [Ht _]. rewrite Hn'. auto.
  - intros id. rewrite Hl', Hn'. auto.
Qed.

Lemma reachable_invariants (w : World) :
  reachable call w -> handles_fresh w ∧ rates_nonzero w.
Proof.
  induction 1 as [h n fs F options | now args w Hr IH | now w w' Hr IH Ht
                  | gotoEnd w w' Hr IH Hs | now w Hr IH | w w' Hr IH Hres
                  | hookName hookFunc w Hr IH | fuel hookName hookFunc w w' Hr IH Hrem
                  | h w Hr IH | id w Hr IH].
  - split.
    + split; [simpl; lia|]. split; [intros t Ht; apply elem_of_nil in Ht; contradiction|].
      intros id. discriminate.
    + destruct (init_falsy_free options) as (Hf & Hd & _).
      split; [exact Hf|]. split; [exact Hd|]. intros params. discriminate.
  - apply tween_invariants. exact IH.
  - eapply timeoutHandler_invariants; eassumption.
  - eapply stop_invariants; eassumption.
  - destruct IH as ((Hn & Hpend & Hid) & Hrates). split; [|exact Hrates].
    split; [exact Hn|]. split; [|exact Hid].
    intros t Ht. apply clearTimeout_pending in Ht as [Ht _]. auto.
  - destruct IH as ((Hn & Hpend & Hid) & (Hf & Hd & Hp)).
    unfold resume in Hres. destruct (_tweenParams (self w)) as [p|] eqn:Hpar; [|discriminate].
    injection Hres as <-. simpl. split; [split; [|split]|split; [|split]]; simpl.
    + lia.
    + intros t Ht. apply elem_of_app in Ht as [Ht| Ht].
      * specialize (Hpend t Ht). lia.
      * apply list_elem_of_singleton in Ht. subst t. simpl. lia.
    + intros id Hl. specialize (Hid id Hl). lia.
    + exact Hf.
    + exact Hd.
    + intros params [= <-]. specialize (Hp p eq_refl).
      destruct (State.isPaused (_state (self w))); exact Hp.
  - exact IH.
  - unfold hookRemove in Hrem.
    destruct (_hook (self w) !! hookName) as [a|]; [|injection Hrem as <-; exact IH].
    destruct hookFunc as [f|]; [|injection Hrem as <-; exact IH].
    destruct (hookRemove_loop fuel (Z.of_nat (length a)) a f); simpl in Hrem; [|discriminate].
    injection Hrem as <-. exact IH.
  - exact IH.
  - destruct IH as ((Hn & Hpend & Hid) & Hrates). split; [|exact Hrates].
    split; [exact Hn|]. split; [|exact Hid].
    intros t Ht. apply clearTimeout_pending in Ht as [Ht _]. auto.
Qed.

(** X6. In every world the engine reaches, the frame rate and the default
    duration of the instance and the duration of the run are not zero: an
    accepted [tween] schedules its first tick after the finite delay
    [1000 / fps], and no run divides by a zero duration. *)
Theorem reachable_rates_nonzero (w : World) :
  reachable call w ->
  ¬ (fps (self w) == 0)%Q
  ∧ ¬ (duration (self w) == 0)%Q
  ∧ (forall params, _tweenParams (self w) = Some params ->
       ¬ (TweenParams.duration params == 0)%Q)
  ∧ (forall now args,
       State.isAnimating (_state (self w)) = false ->
       pending (tween call now args w).2
       = (pending w ++ [(next_handle w, Fin (1000 / fps (self w)))])%list).
Proof.
  intros Hr. destruct (reachable_invariants w Hr) as (_ & Hf & Hd & Hp).
  split_all; try assumption.
  intros now args Ha.
  destruct (tween_started call now args w Ha) as (params & current & h & _ & _ & _ & _ & Hpend & _).
  rewrite Hpend. unfold num_div.
  destruct (Qeq_bool (fps (self w)) 0) eqn:E; [|reflexivity].
  apply Qeq_bool_iff in E. contradiction.
Qed.

Lemma clearTimeout_no_match (id : option nat) (w : World) :
  (forall t, t ∈ pending w -> Some t.1 ≠ id) ->
  pending (clearTimeout id w) = pending w.
Proof.
  unfold clearTimeout. simpl. generalize (pending w). intros l Hl.
  induction l as [|t l IH]; [reflexivity|]. simpl.
  rewrite bool_decide_eq_false_2 by (apply Hl; left). simpl.
  rewrite IH; [reflexivity|]. intros t' Ht'. apply Hl. right. exact Ht'.
Qed.

(** X7. In every world the engine reaches, [stop ()] or [pause ()] called
    after an accepted [tween] and before its first tick clears no timer:
    [tween] leaves 0 in [loopId], which is no timer's handle, so the tick it
    scheduled stays pending. *)
Theorem stop_or_pause_before_first_tick (now at_time : Z) (args : TweenArgs) (w : World) :
  reachable call w ->
  State.isAnimating (_state (self w)) = false ->
  exists w',
    stop call false (tween call now args w).2 = Some w'
    ∧ pending w' = pending (tween call now args w).2
    ∧ pending (pause at_time (tween call now args w).2) = pending (tween call now args w).2
    ∧ (next_handle w, Fin (1000 / fps (self w))) ∈ pending w'.
Proof.
  intros Hr Ha.
  assert (Hr1 : reachable call (tween call now args w).2) by (apply reach_tween; exact Hr).
  destruct (reachable_invariants _ Hr1) as ((_ & Hpend & _) & _).
  destruct (reachable_invariants _ Hr) as (_ & Hf & _).
  destruct (tween_started call now args w Ha) as (params & current & h & _ & Hs & _ & _ & Hp & _).
  assert (Hl : State.loopId (_state (self (tween call now args w).2)) = Some 0)
    by (rewrite Hs; reflexivity).
  assert (Hno : forall t, t ∈ pending (tween call now args w).2
                          -> Some t.1 ≠ State.loopId (_state (self (tween call now args w).2))).
  { intros t Ht. rewrite Hl. specialize (Hpend t Ht). intros [= H0]. lia. }
  assert (HpW : _tweenParams (self (tween call now args w).2) = Some params)
    by (rewrite Hs; reflexivity).
  assert (HcW : State.current (_state (self (tween call now args w).2)) = Some current)
    by (rewrite Hs; reflexivity).
  revert Hl Hno HpW HcW Hp. generalize (tween call now args w).2. intros W Hl Hno HpW HcW Hp.
  unfold stop. rewrite HpW, HcW. eexists. split; [reflexivity|].
  split; [apply clearTimeout_no_match; exact Hno|].
  split; [unfold pause; simpl; apply clearTimeout_no_match; exact Hno|].
  rewrite clearTimeout_no_match by exact Hno. rewrite Hp.
  apply elem_of_app. right. apply list_elem_of_singleton. unfold num_div.
  destruct (Qeq_bool (fps (self w)) 0) eqn:E; [|reflexivity].
  apply Qeq_bool_iff in E. contradiction.
Qed.

(** X8. [resume ()] always schedules one more tick, paused or not, and does
    not record its handle: [loopId] and [isPaused] are as before (nothing ever
    clears [isPaused]), the store is untouched, and in every world the engine
    reaches a [stop ()] that follows leaves that tick pending. *)
Theorem resume_schedules_unrecorded_tick (w w' : World) :
  reachable call w ->
  resume w = Some w' ->
  pending w' = (pending w ++ [(next_handle w, NonFinite)])%list
  ∧ State.loopId (_state (self w')) = State.loopId (_state (self w))
  ∧ State.isPaused (_state (self w')) = State.isPaused (_state (self w))
  ∧ State.isAnimating (_state (self w')) = State.isAnimating (_state (self w))
  ∧ store w' = store w
  ∧ (forall w'', stop call false w' = Some w'' -> (next_handle w, NonFinite) ∈ pending w'').
Proof.
  intros Hr Hres. destruct (reachable_invariants w Hr) as ((_ & _ & Hid) & _).
  unfold resume in Hres. destruct (_tweenParams (self w)) as [p|] eqn:Hp; [|discriminate].
  injection Hres as <-. simpl. split_all; try reflexivity.
  intros w'' Hs. apply stop_frame in Hs as (_&_&_&_&_&_&_&_&_&Hpend).
  apply Hpend. simpl. split.
  - apply elem_of_app. right. apply list_elem_of_singleton. reflexivity.
  - intros Hl. symmetry in Hl. apply Hid in Hl. lia.
Qed.

(** ** Completion *)

Lemma continues_false (now : Z) (params : TweenParams.t) (state : State.t) :
  (inject_Z (TweenParams.timestamp params) + TweenParams.duration params <= inject_Z now)%Q
  ∨ State.isAnimating state = false ->
  continues now params state = false.
Proof.
  unfold continues, Qltb. intros [Hle|Ha].
  - apply Qle_bool_iff in Hle. rewrite Hle. reflexivity.
  - rewrite Ha. apply andb_false_r.
Qed.

(** X9. A tick that runs once the duration has elapsed, or on a run that is
    no longer animating, completes the run: every property of [to] is copied
    into [current], [isAnimating] becomes false, [callback] is called on
    [current], and no timer is set. *)
Theorem timeoutHandler_completes (now : Z) (w : World) (params : TweenParams.t)
    (current : loc) :
  _tweenParams (self w) = Some params ->
  State.current (_state (self w)) = Some current ->
  (inject_Z (TweenParams.timestamp params) + TweenParams.duration params <= inject_Z now)%Q
  ∨ State.isAnimating (_state (self w)) = false ->
  exists w' h,
    timeoutHandler call now w = Some w'
    ∧ State.isAnimating (_state (self w')) = false
    ∧ log w' = (log w ++ [EvCallback (TweenParams.callback params)])%list
    ∧ next_handle w' = next_handle w
    ∧ (forall t, t ∈ pending w' -> t ∈ pending w)
    ∧ store w' = invoke call (TweenParams.callback params) [current] h
    ∧ (forall prop v,
         get_prop (store w) (TweenParams.to params) prop = Some v ->
         get_prop h current prop = Some v)
    ∧ (forall prop,
         get_prop (store w) (TweenParams.to params) prop = None ->
         get_prop h current prop = get_prop (store w) current prop).
Proof.
  intros Hp Hc Hend. apply continues_false in Hend.
  destruct (stop_effect call true w params current Hp Hc)
    as (w' & Hs & Hpend & _ & _ & Hl & Ha & h & Hst & Hcopy & _).
  destruct (stop_frame true w w' Hs) as (Hn & _).
  exists w', h. unfold timeoutHandler. rewrite Hp, Hc, Hend.
  split_all; try assumption.
  - intros t Ht. apply Hpend in Ht as [Ht _]. exact Ht.
  - intros prop v Hv. rewrite Hcopy, Hv. reflexivity.
  - intros prop Hv. rewrite Hcopy, Hv. reflexivity.
Qed.

(** X10. After [stop (true)] the instance is free again: the next call of
    [tween] returns a controller and starts a run. *)
Theorem tween_accepted_after_completion (now : Z) (args : TweenArgs) (w w' : World) :
  stop call true w = Some w' ->
  (tween call now args w').1 = Some tweenController
  ∧ State.isAnimating (_state (self (tween call now args w').2)) = true
  ∧ State.loopId (_state (self (tween call now args w').2)) = Some 0
  ∧ State.pausedAtTime (_state (self (tween call now args w').2)) = None.
Proof.
  intros Hs.
  assert (Ha : State.isAnimating (_state (self w')) = false).
  { unfold stop in Hs. destruct (_tweenParams (self w)) as [params|]; [|discriminate].
    destruct (State.current (_state (self w))) as [current|]; [|discriminate].
    injection Hs as <-. reflexivity. }
  destruct (tween_started call now args w' Ha) as (params & current & h & Hr & Hself & _).
  rewrite Hself. split_all; [exact Hr | reflexivity..].
Qed.


(** ** The object the controller returns *)

(** X12. [get ()] returns the same object for the whole run: no tick and no
    method of the controller or of the hook registry changes [current]'s
    identity; only an accepted [tween] does. *)
Theorem get_is_stable (w : World) :
  (forall now w', timeoutHandler call now w = Some w' -> get w' = get w)
  ∧ (forall gotoEnd w', stop call gotoEnd w = Some w' -> get w' = get w)
  ∧ (forall at_time, get (pause at_time w) = get w)
  ∧ (forall w', resume w = Some w' -> get w' = get w)
  ∧ (forall hookName hookFunc, get (hookAdd hookName hookFunc w) = get w)
  ∧ (forall fuel hookName hookFunc w',
       hookRemove fuel hookName hookFunc w = Some w' -> get w' = get w)
  ∧ (forall now args,
       State.isAnimating (_state (self w)) = true -> get (tween call now args w).2 = get w).
Proof.
  unfold get. split_all.
  - intros now w' H. apply timeoutHandler_frame in H as (_&_&_&_&Hc&_). exact Hc.
  - intros gotoEnd w' H. apply stop_frame in H as (_&_&_&_&_&_&Hc&_). exact Hc.
  - reflexivity.
  - intros w' H. unfold resume in H.
    destruct (_tweenParams (self w)); [|discriminate]. injection H as <-. reflexivity.
  - reflexivity.
  - intros fuel hookName hookFunc w' H. unfold hookRemove in H.
    destruct (_hook (self w) !! hookName) as [a|]; [|injection H as <-; reflexivity].
    destruct hookFunc as [f|]; [|injection H as <-; reflexivity].
    destruct (hookRemove_loop fuel (Z.of_nat (length a)) a f); simpl in H; [|discriminate].
    injection H as <-. reflexivity.
  - intros now args Ha. rewrite tween_when_animating by exact Ha. reflexivity.
Qed.

(** ** A pause outlives its run *)

(** X13. [isPaused] outlives the run it was set in: on an instance that was
    paused once, [resume ()] on a later run, which [tween] started with
    [pausedAtTime = null], moves the start of that run to 0, so that any tick
    at a time not before [duration] completes it. *)
Theorem resume_on_later_run (now : Z) (args : TweenArgs) (w : World) :
  State.isPaused (_state (self w)) = true ->
  State.isAnimating (_state (self w)) = false ->
  exists w' params,
    resume (tween call now args w).2 = Some w'
    ∧ _tweenParams (self w') = Some params
    ∧ TweenParams.timestamp params = 0%Z
    ∧ (forall now', (TweenParams.duration params <= inject_Z now')%Q ->
                    continues now' params (_state (self w')) = false).
Proof.
  intros Hpaused Ha.
  destruct (tween_started call now args w Ha) as (params & current & h & _ & Hs & _).
  unfold resume. rewrite Hs. simpl. rewrite Hpaused.
  eexists. exists (TweenParams.set_timestamp 0 params).
  split; [reflexivity|]. split; [|split; [reflexivity|]].
  - simpl. unfold TweenParams.set_timestamp. do 2 f_equal. lia.
  - intros now' Hle. apply continues_false. left. simpl.
    change (inject_Z 0) with 0%Q. rewrite Qplus_0_l. exact Hle.
Qed.

(** ** A tick with no callbacks *)

(** X14. With no filter, no [step] hook list and no [step] callback, a tick
    whose test holds changes the store by one interpolation step and nothing
    else: the properties of [current] are eased as §4.3 says, every other
    object is as it was, and the log gains the step and the reschedule. *)
Theorem tick_without_callbacks (now : Z) (w : World) (params : TweenParams.t)
    (current : loc) :
  _tweenParams (self w) = Some params ->
  State.current (_state (self w)) = Some current ->
  continues now params (_state (self w)) = true ->
  filter w = [] ->
  _hook (self w) !! "step" = None ->
  TweenParams.step params = noop ->
  exists w',
    timeoutHandler call now w = Some w'
    ∧ (forall prop,
         get_prop (store w') current prop
         = interpolated_value now (TweenParams.timestamp params) (TweenParams.duration params)
             (TweenParams.easingFunc params) (TweenParams.originalState params)
             (TweenParams.to params) current (store w) prop)
    ∧ (forall l, l ≠ current -> get_obj (store w') l = get_obj (store w) l)
    ∧ exists delay,
        log w' = (log w ++ [EvTweenProps now; EvStep noop;
                            EvSetTimeout (next_handle w) delay])%list.
Proof.
  intros Hp Hc Hcont Hf Hh Hstep.
  destruct (timeoutHandler_continue call now w params current Hp Hc Hcont)
    as (w1 & Hw1 & Hl & _).
  destruct (timeoutHandler_continue_store now w params current Hp Hc Hcont)
    as (w2 & Hw2 & _ & Hst).
  rewrite Hw1 in Hw2. injection Hw2 as <-.
  rewrite Hf, Hh, Hstep in Hst. simpl in Hst.
  exists w1. split; [exact Hw1|]. rewrite Hst. split; [|split].
  - intros prop. apply tweenProps_lookup.
  - intros l Hl'. apply tweenProps_elsewhere. exact Hl'.
  - eexists. rewrite Hl, Hf. unfold hook_events. rewrite Hh, Hstep. reflexivity.
Qed.

(** ** Stopping and pausing twice *)

Lemma clearTimeout_twice (id : option nat) (w : World) :
  clearTimeout id (clearTimeout id w) = clearTimeout id w.
Proof.
  assert (H : pending (clearTimeout id (clearTimeout id w)) = pending (clearTimeout id w)).
  { apply clearTimeout_no_match. intros t Ht.
    apply clearTimeout_pending in Ht as [_ Ht]. exact Ht. }
  unfold clearTimeout at 1. unfold set_pending. simpl.
  unfold clearTimeout at 1 in H. simpl in H. rewrite H. reflexivity.
Qed.

(** X15. [stop ()] without [gotoEnd] twice is [stop ()] once: the second
    call finds the timer cleared and changes nothing. *)
Theorem stop_twice (w w' : World) :
  stop call false w = Some w' -> stop call false w' = Some w'.
Proof.
  unfold stop.
  destruct (_tweenParams (self w)) as [params|] eqn:Hp; [|discriminate].
  destruct (State.current (_state (self w))) as [current|] eqn:Hc; [|discriminate].
  intros [= <-]. simpl. rewrite Hp, Hc. f_equal. apply clearTimeout_twice.
Qed.

(** X16. [pause ()] leaves the store, the log, the run parameters and
    [isAnimating] as they were, so a paused instance still rejects [tween];
    and a second [pause ()] only replaces the time of the pause. *)
Theorem pause_keeps_run (at_time at_time' : Z) (w : World) :
  store (pause at_time w) = store w
  ∧ log (pause at_time w) = log w
  ∧ _tweenParams (self (pause at_time w)) = _tweenParams (self w)
  ∧ State.isAnimating (_state (self (pause at_time w))) = State.isAnimating (_state (self w))
  ∧ (State.isAnimating (_state (self w)) = true ->
     forall now args, tween call now args (pause at_time w) = (None, pause at_time w))
  ∧ pause at_time' (pause at_time w) = pause at_time' w.
Proof.
  split_all; try reflexivity.
  - intros Ha now args. apply tween_when_animating. exact Ha.
  - pose proof (f_equal pending (clearTimeout_twice (State.loopId (_state (self w))) w)) as H.
    unfold pause, clearTimeout, set_pending, set_self, set_state in *. simpl in *.
    rewrite H. reflexivity.
Qed.

(** ** The arguments of [tween] *)

Lemma normalize_values (this : Tweenable) (args : TweenArgs) (w wN : World)
    (step callback : fn) (current to : loc) (d : Q) (e : string) :
  normalize this args w = (step, callback, current, to, d, e, wN) ->
  d = or_num (args_duration args) (duration this)
  ∧ e = or_str (args_easing args) (easing this).
Proof.
  intros HN. unfold normalize in HN.
  destruct args as [from to0 duration0 callback0 easing0 | config].
  - destruct (or_new from w) as [c w1]. injection HN as <- <- <- <- <- <- <-.
    split; reflexivity.
  - destruct (or_new (cfg_from config) w) as [c w1].
    destruct (or_new (cfg_to config) w1) as [t w2].
    injection HN as <- <- <- <- <- <- <-. split; reflexivity.
Qed.

(** X17. The run an accepted [tween] starts: its start is the time of the
    call; a duration that is omitted or 0 gives way to the default duration of
    the instance, an easing name that is omitted or empty to its default
    easing; and a name that the formula registry holds as its own uses the
    formula registered under it. *)
Theorem tween_falls_back (now : Z) (args : TweenArgs) (w : World) :
  State.isAnimating (_state (self w)) = false ->
  exists params,
    _tweenParams (self (tween call now args w).2) = Some params
    ∧ TweenParams.timestamp params = now
    ∧ (args_duration args = None ∨ args_duration args = Some 0%Q ->
       TweenParams.duration params = duration (self w))
    ∧ (forall d, args_duration args = Some d -> ¬ (d == 0)%Q ->
                 TweenParams.duration params = d)
    ∧ (args_easing args = None ∨ args_easing args = Some "" ->
       TweenParams.easing params = easing (self w))
    ∧ (forall e, args_easing args = Some e -> e ≠ "" -> TweenParams.easing params = e)
    ∧ (forall f, formula w !! TweenParams.easing params = Some f ->
                 TweenParams.easingFunc params = f).
Proof.
  intros Ha.
  destruct (tween_started_params now args w Ha)
    as (_ & _ & _ & _ & step & callback & current & to & d & e & wN & HN & Hp).
  destruct (normalize_values _ _ _ _ _ _ _ _ _ _ HN) as (-> & ->).
  eexists. split; [exact Hp|]. simpl. split_all.
  - reflexivity.
  - intros [-> | ->]; reflexivity.
  - intros d0 -> Hd0. unfold or_num.
    destruct (Qeq_bool d0 0) eqn:E; [|reflexivity].
    apply Qeq_bool_iff in E. contradiction.
  - intros [-> | ->]; reflexivity.
  - intros e0 -> He0. unfold or_str. destruct e0; [contradiction|reflexivity].
  - intros f Hf. rewrite Hf. reflexivity.
Qed.

(** ** The hook registry *)

Lemma hookAdd_lookup (hookName hookName' : string) (hookFunc : fn) (w : World) :
  _hook (self (hookAdd hookName hookFunc w)) !! hookName'
  = if decide (hookName = hookName')
    then Some (default [] (_hook (self w) !! hookName) ++ [hookFunc])%list
    else _hook (self w) !! hookName'.
Proof. unfold hookAdd. simpl. apply lookup_insert. Qed.

Lemma hookAdd_all_spec (hookName : string) (fs : list fn) (w : World) :
  default [] (_hook (self (hookAdd_all hookName fs w)) !! hookName)
  = (default [] (_hook (self w) !! hookName) ++ fs)%list
  ∧ (forall hookName', hookName ≠ hookName' ->
       _hook (self (hookAdd_all hookName fs w)) !! hookName' = _hook (self w) !! hookName')
  ∧ _tweenParams (self (hookAdd_all hookName fs w)) = _tweenParams (self w)
  ∧ _state (self (hookAdd_all hookName fs w)) = _state (self w)
  ∧ store (hookAdd_all hookName fs w) = store w
  ∧ pending (hookAdd_all hookName fs w) = pending w.
Proof.
  unfold hookAdd_all. revert w. induction fs as [|f fs IH]; intros w.
  - simpl. rewrite !app_nil_r. split_all; reflexivity.
  - simpl. destruct (IH (hookAdd hookName f w)) as (Hd & Ho & Hp & Hs & Hst & Hpe).
    split.
    { rewrite Hd, hookAdd_lookup, decide_True by reflexivity. simpl.
      rewrite <- app_assoc. reflexivity. }
    split.
    { intros hookName' Hne. rewrite Ho by exact Hne.
      rewrite hookAdd_lookup, decide_False by exact Hne. reflexivity. }
    rewrite Hp, Hs, Hst, Hpe. split_all; reflexivity.
Qed.

(** X18. On a registry whose [hasOwnProperty] is the inherited method, and
    under a name other than [hasOwnProperty] and [__proto__]: hooks registered
    under the name are kept in the order of their registration, after the ones
    the name had, doubles included; the lists of the other names, the run and
    the store are not touched, and the registry still has no list under
    [hasOwnProperty] or [__proto__].  So a tick calls them in that order. *)
Theorem hookAdd_keeps_order (hookName : string) (fs : list fn) (w : World) :
  plain_registry (_hook (self w)) ->
  plain_hook_name hookName ->
  default [] (_hook (self (hookAdd_all hookName fs w)) !! hookName)
  = (default [] (_hook (self w) !! hookName) ++ fs)%list
  ∧ hook_events hookName (_hook (self (hookAdd_all hookName fs w)))
    = (hook_events hookName (_hook (self w)) ++ (EvHook hookName <$> fs))%list
  ∧ (forall hookName', hookName ≠ hookName' ->
       _hook (self (hookAdd_all hookName fs w)) !! hookName' = _hook (self w) !! hookName')
  ∧ plain_registry (_hook (self (hookAdd_all hookName fs w)))
  ∧ _tweenParams (self (hookAdd_all hookName fs w)) = _tweenParams (self w)
  ∧ _state (self (hookAdd_all hookName fs w)) = _state (self w)
  ∧ store (hookAdd_all hookName fs w) = store w
  ∧ pending (hookAdd_all hookName fs w) = pending w.
Proof.
  intros (Hh & Hproto) (Hn1 & Hn2).
  destruct (hookAdd_all_spec hookName fs w) as (Hd & Ho & Hp & Hs & Hst & Hpe).
  split; [exact Hd|]. split.
  { unfold hook_events. rewrite Hd, fmap_app. reflexivity. }
  split; [exact Ho|]. split.
  { split; rewrite Ho by assumption; assumption. }
  split_all; assumption.
Qed.

(** X19. On a registry whose [hasOwnProperty] is the inherited method, the
    two ways [hookRemove] returns, whatever the fuel: under a name with no
    list it changes nothing, with or without a callback; without a callback it
    leaves the name an empty list (so a tick still finds a list and calls
    nothing) and the other names, the run and the store as they were. *)
Theorem hookRemove_returns (fuel : nat) (hookName : string) (w : World) :
  plain_registry (_hook (self w)) ->
  (_hook (self w) !! hookName = None ->
   forall hookFunc, hookRemove fuel hookName hookFunc w = Some w)
  ∧ (is_Some (_hook (self w) !! hookName) ->
     exists w',
       hookRemove fuel hookName None w = Some w'
       ∧ _hook (self w') !! hookName = Some []
       ∧ hook_events hookName (_hook (self w')) = []
       ∧ (forall hookName', hookName ≠ hookName' ->
            _hook (self w') !! hookName' = _hook (self w) !! hookName')
       ∧ plain_registry (_hook (self w'))
       ∧ _tweenParams (self w') = _tweenParams (self w)
       ∧ _state (self w') = _state (self w)
       ∧ store w' = store w
       ∧ pending w' = pending w).
Proof.
  intros (Hh & Hproto). split.
  - intros Hn hookFunc. apply hookRemove_unregistered. exact Hn.
  - intros [a Ha]. unfold hookRemove. rewrite Ha. eexists. split; [reflexivity|]. simpl.
    split; [apply lookup_insert_eq|]. split.
    { unfold hook_events. rewrite lookup_insert_eq. reflexivity. }
    split; [intros hookName' Hne; apply lookup_insert_ne; exact Hne|].
    split; [|split_all; reflexivity].
    split; (rewrite lookup_insert_ne; [assumption|]); intros ->; congruence.
Qed.

(** ** Filters *)

Lemma applyFilter_none (filterName : string) (args : list loc)
    (fs : list (string * gmap string fn)) (w : World) :
  (forall g, g ∈ fs -> g.2 !! filterName = None) ->
  foldl (fun w (g : string * gmap string fn) =>
           match g.2 !! filterName with
           | Some f => apply_fn call (EvFilter filterName g.1 f) f args w
           | None => w
           end) w fs = w.
Proof.
  induction fs as [|g fs IH]; intros H; [reflexivity|].
  simpl. rewrite (H g) by left. apply IH. intros g' Hg'. apply H. right. exact Hg'.
Qed.

(** X20. [applyFilter] calls the filter of every group that defines it,
    once each and in the order of the registry, each on the store the one
    before left, and changes nothing else of the world; when no group defines
    the filter the world is as it was. *)
Theorem applyFilter_calls_defined_groups (filterName : string) (args : list loc) (w : World) :
  same_engine w (applyFilter call filterName args w)
  ∧ log (applyFilter call filterName args w)
    = (log w ++ filter_events filterName (filter w))%list
  ∧ store (applyFilter call filterName args w)
    = run_filters call filterName args (filter w) (store w)
  ∧ ((forall g, g ∈ filter w -> g.2 !! filterName = None) ->
     applyFilter call filterName args w = w).
Proof.
  destruct (applyFilter_spec call filterName args w) as (He & Hl & Hs).
  split_all; try assumption.
  intros H. unfold applyFilter. apply applyFilter_none. exact H.
Qed.

(** X21. An accepted [tween] calls the [tweenCreated] filters once each, in
    the order of the registry, on the store that holds the snapshot, and only
    then schedules the first tick, with the next handle of the host. *)
Theorem tween_filters_then_schedules (now : Z) (args : TweenArgs) (w : World) :
  State.isAnimating (_state (self w)) = false ->
  exists params current h,
    log (tween call now args w).2
    = (log w ++ filter_events "tweenCreated" (filter w)
       ++ [EvSetTimeout (next_handle w) (num_div (Fin 1000) (Fin (fps (self w))))])%list
    ∧ next_handle (tween call now args w).2 = S (next_handle w)
    ∧ _tweenParams (self (tween call now args w).2) = Some params
    ∧ get (tween call now args w).2 = Some current
    ∧ get_obj h (TweenParams.originalState params) = get_obj h current
    ∧ store (tween call now args w).2
      = run_filters call "tweenCreated"
          [current; TweenParams.originalState params; TweenParams.to params] (filter w) h.
Proof.
  intros Ha.
  destruct (tween_started call now args w Ha)
    as (params & current & h & _ & Hs & _ & _ & _ & _ & _ & Hsnap & _ & Hst).
  destruct (tween_started_params now args w Ha) as (Hn & Hl & _).
  exists params, current, h. unfold get. rewrite Hs. simpl.
  split_all; try assumption; reflexivity.
Qed.

End More.

(** * More of the sample run *)

Lemma reachable_rates_nonzero_witness :
  ¬ (fps (self sample_started) == 0)%Q
  ∧ (forall params, _tweenParams (self sample_started) = Some params ->
       ¬ (TweenParams.duration params == 0)%Q).
Proof.
  destruct (reachable_rates_nonzero no_calls sample_started) as (Hf & _ & Hp & _).
  { apply reach_tween, reach_init. }
  split; assumption.
Defined.

Lemma stop_or_pause_before_first_tick_witness :
  exists w',
    stop no_calls false sample_started = Some w'
    ∧ pending w' = pending sample_started
    ∧ pending (pause 50 sample_started) = pending sample_started
    ∧ (next_handle sample_world, Fin (1000 / fps (self sample_world))) ∈ pending w'.
Proof.
  apply (stop_or_pause_before_first_tick no_calls 0 50 sample_args sample_world).
  - apply reach_init.
  - by_evaluation.
Defined.

Lemma resume_schedules_unrecorded_tick_witness :
  pending sample_resumed_early = [(1, Fin (1000 # 30)); (2, NonFinite)]
  ∧ State.loopId (_state (self sample_resumed_early)) = Some 0.
Proof.
  destruct (resume_schedules_unrecorded_tick no_calls sample_started sample_resumed_early)
    as (Hp & Hl & _).
  - apply reach_tween, reach_init.
  - by_evaluation.
  - split; [rewrite Hp | rewrite Hl]; by_evaluation.
Defined.

Lemma timeoutHandler_completes_witness :
  exists w' h,
    timeoutHandler no_calls 1000 sample_started = Some w'
    ∧ State.isAnimating (_state (self w')) = false
    ∧ log w' = (log sample_started ++ [EvCallback noop])%list
    ∧ next_handle w' = next_handle sample_started
    ∧ (forall t, t ∈ pending w' -> t ∈ pending sample_started)
    ∧ store w' = invoke no_calls noop [sample_from] h
    ∧ (forall prop v,
         get_prop (store sample_started) sample_to prop = Some v ->
         get_prop h sample_from prop = Some v)
    ∧ (forall prop,
         get_prop (store sample_started) sample_to prop = None ->
         get_prop h sample_from prop = get_prop (store sample_started) sample_from prop).
Proof.
  apply (timeoutHandler_completes no_calls 1000 sample_started sample_params sample_from).
  - by_evaluation.
  - by_evaluation.
  - left. unfold Qle. simpl. lia.
Defined.

Lemma tween_accepted_after_completion_witness :
  stop no_calls true sample_started = Some sample_completed
  ∧ (tween no_calls 300 sample_args sample_completed).1 = Some tweenController.
Proof.
  assert (H : stop no_calls true sample_started = Some sample_completed) by by_evaluation.
  split; [exact H|].
  apply (tween_accepted_after_completion no_calls 300 sample_args sample_started
           sample_completed H).
Defined.


Lemma get_is_stable_witness :
  get sample_completed = get sample_started
  ∧ get (tween no_calls 300 sample_args sample_started).2 = get sample_started.
Proof.
  destruct (get_is_stable no_calls sample_started) as (_ & Hs & _ & _ & _ & _ & Ht).
  split.
  - apply (Hs true sample_completed). by_evaluation.
  - apply (Ht 300%Z sample_args). by_evaluation.
Defined.

Lemma resume_on_later_run_witness :
  exists w' params,
    resume (tween no_calls 5000 sample_args sample_paused_done).2 = Some w'
    ∧ _tweenParams (self w') = Some params
    ∧ TweenParams.timestamp params = 0%Z
    ∧ (forall now', (TweenParams.duration params <= inject_Z now')%Q ->
                    continues now' params (_state (self w')) = false).
Proof.
  apply (resume_on_later_run no_calls 5000 sample_args sample_paused_done); by_evaluation.
Defined.

Lemma tick_without_callbacks_witness :
  exists w',
    timeoutHandler no_calls 100 sample_started = Some w'
    ∧ get_prop (store w') sample_from "x"
      = interpolated_value 100 0 1000 linear 3 sample_to sample_from
          (store sample_started) "x"
    ∧ get_obj (store w') sample_to = get_obj (store sample_started) sample_to.
Proof.
  destruct (tick_without_callbacks no_calls 100 sample_started sample_params sample_from)
    as (w' & Hw & Hv & Ho & _); try by_evaluation.
  exists w'. split; [exact Hw|]. split; [apply Hv|]. apply Ho. discriminate.
Defined.

Lemma stop_twice_witness :
  stop no_calls false sample_stopped_world = Some sample_stopped_world.
Proof.
  apply (stop_twice no_calls sample_ticked_world sample_stopped_world). by_evaluation.
Defined.

Lemma pause_keeps_run_witness :
  tween no_calls 300 sample_args (pause 200 sample_started) = (None, pause 200 sample_started)
  ∧ pause 250 (pause 200 sample_started) = pause 250 sample_started.
Proof.
  destruct (pause_keeps_run no_calls 200 250 sample_started) as (_ & _ & _ & _ & Ht & Hp).
  split; [|exact Hp]. apply Ht. by_evaluation.
Defined.

Lemma tween_falls_back_witness :
  exists params,
    _tweenParams (self partial_started) = Some params
    ∧ TweenParams.duration params = 500%Q
    ∧ TweenParams.easing params = "bounce".
Proof.
  destruct (tween_falls_back no_calls 0 partial_args partial_world) as
    (params & Hp & _ & Hd & _ & _ & He & _); [by_evaluation|].
  exists params. split; [exact Hp|]. split.
  - rewrite Hd; [by_evaluation | right; reflexivity].
  - apply He; [reflexivity | discriminate].
Defined.

Lemma hookAdd_keeps_order_witness :
  hook_events "step" (_hook (self (hookAdd_all "step" [user_fn 1; user_fn 2; user_fn 1]
                                     hooked_world)))
  = [EvHook "step" (user_fn 3); EvHook "step" (user_fn 1); EvHook "step" (user_fn 2);
     EvHook "step" (user_fn 1)]
  ∧ _hook (self (hookAdd_all "step" [user_fn 1; user_fn 2; user_fn 1] hooked_world)) !! "done"
    = _hook (self hooked_world) !! "done".
Proof.
  destruct (hookAdd_keeps_order "step" [user_fn 1; user_fn 2; user_fn 1] hooked_world)
    as (_ & He & Ho & _).
  - split; by_evaluation.
  - split; discriminate.
  - split; [rewrite He; by_evaluation|]. apply Ho. discriminate.
Defined.

Lemma hookRemove_returns_witness :
  hookRemove 0 "done" (Some (user_fn 3)) hooked_world = Some hooked_world
  ∧ exists w', hookRemove 0 "step" None hooked_world = Some w'
               ∧ _hook (self w') !! "step" = Some [].
Proof.
  split.
  - destruct (hookRemove_returns 0 "done" hooked_world) as (Hn & _);
      [split; by_evaluation|].
    apply Hn. by_evaluation.
  - destruct (hookRemove_returns 0 "step" hooked_world) as (_ & Hc);
      [split; by_evaluation|].
    destruct Hc as (w' & Hw & Hl & _).
    + exists [user_fn 3]. by_evaluation.
    + exists w'. split; assumption.
Defined.

Lemma applyFilter_calls_defined_groups_witness :
  applyFilter no_calls "tweenCreated" [sample_from; 3; sample_to] hooked_started
  = hooked_started.
Proof.
  destruct (applyFilter_calls_defined_groups no_calls "tweenCreated"
              [sample_from; 3; sample_to] hooked_started) as (_ & _ & _ & H).
  apply H. intros g Hg.
  assert (Hf : filter hooked_started
               = [("group", {[ "beforeTween" := user_fn 1; "afterTween" := user_fn 2 ]})])
    by by_evaluation.
  rewrite Hf in Hg. apply list_elem_of_singleton in Hg. subst g. by_evaluation.
Defined.

Lemma tween_filters_then_schedules_witness :
  exists params current h,
    log (tween no_calls 0 hooked_args hooked_world).2
    = (log hooked_world ++ filter_events "tweenCreated" (filter hooked_world)
       ++ [EvSetTimeout (next_handle hooked_world)
             (num_div (Fin 1000) (Fin (fps (self hooked_world))))])%list
    ∧ next_handle (tween no_calls 0 hooked_args hooked_world).2 = S (next_handle hooked_world)
    ∧ _tweenParams (self (tween no_calls 0 hooked_args hooked_world).2) = Some params
    ∧ get (tween no_calls 0 hooked_args hooked_world).2 = Some current
    ∧ get_obj h (TweenParams.originalState params) = get_obj h current
    ∧ store (tween no_calls 0 hooked_args hooked_world).2
      = run_filters no_calls "tweenCreated"
          [current; TweenParams.originalState params; TweenParams.to params]
          (filter hooked_world) h.
Proof.
  apply (tween_filters_then_schedules no_calls 0 hooked_args hooked_world). by_evaluation.
Defined.

Lemma timeoutHandler_order_witness :
  exists w',
    timeoutHandler no_calls 100 hooked_started = Some w'
    ∧ log w' = [EvSetTimeout 1 (Fin (1000 # 30));
                EvFilter "beforeTween" "group" (user_fn 1);
                EvTweenProps 100;
                EvFilter "afterTween" "group" (user_fn 2);
                EvHook "step" (user_fn 3);
                EvStep (user_fn 4);
                EvSetTimeout 2 NonFinite]
    ∧ has_value (Some w') sample_from "x" 10
    ∧ pending w' = [(1, Fin (1000 # 30)); (2, NonFinite)]
    ∧ State.loopId (_state (self w')) = Some 2.
Proof.
  destruct (timeoutHandler_order no_calls 100 hooked_started hooked_params sample_from)
    as (w' & Hw & Hl & Hst & Hp & _ & Hs); [by_evaluation | by_evaluation | by_evaluation |].
  exists w'. split; [exact Hw|].
  split; [rewrite Hl; by_evaluation|].
  split; [unfold has_value; rewrite Hst; by_evaluation|].
  split; [rewrite Hp; by_evaluation|].
  rewrite Hs. by_evaluation.
Defined.

(** C9.  [stop ()] called on the sample run before its first tick: the tick
    that [tween] scheduled is still pending (the slip of C5: its handle is not
    in [loopId]), so the run goes on; the tick at 1000 ms completes it and sets
    [isAnimating] to false, and the call of [tween] that follows returns a
    controller and starts a run. *)
Theorem stop_before_first_tick_frees_instance :
  animating sample_stopped_early = Some true
  ∧ timers sample_stopped_early = Some [(1, Fin (1000 # 30))]
  ∧ animating sample_early_done = Some false
  ∧ has_value sample_early_done sample_from "x" 100
  ∧ sample_early_retween = Some (Some tweenController).
Proof. split_all; by_evaluation. Qed.
